(** * Thesaurus of optometry abbreviations: clustering, inverted index, expansion

    A shallow embedding of
      - [build_concept_map]     (generar_lista_id.py),
      - [build_inverted_index]  (generar_indice_invertido.py),
      - [SynonymExpander.expand_term] (ejemplo_busqueda.py),
    and the properties the specification states about them.

    Conventions of the embedding.
      - A Python [str] is a [string]; every [ascii] stands for one code point
        below 256, so the built-ins below are Python's restricted to that
        range (which holds the Spanish alphabet of the data).
      - A Python [set] of strings is a [gset string]; its iteration order,
        which CPython derives from randomised hashes, is a parameter
        ([SetOrder]) wherever the source lets it reach the output.
      - A Python [dict] keeps insertion order: it is an association list
        with unique keys, written to with [dict_set]. *)

From Stdlib Require Import Ascii String Decimal DecimalString DecimalNat.
From stdpp Require Import gmap strings list sorting.

Set Warnings "-abstract-large-number".
Set Warnings "-clear-no-such-hyp".

(** ** Python built-ins used by the three scripts *)

Module Py.

(** [str.isspace] on one character. *)
Definition isspace (c : ascii) : bool :=
  let n := N_of_ascii c in
  ((9 <=? n) && (n <=? 13) || (28 <=? n) && (n <=? 32)
   || (n =? 133) || (n =? 160))%N.

(** [str.isdigit] as the regular expression class [\d] sees it. *)
Definition isdigit (c : ascii) : bool :=
  let n := N_of_ascii c in ((48 <=? n) && (n <=? 57))%N.

Fixpoint lstrip (s : string) : string :=
  match s with
  | "" => ""
  | String c r => if isspace c then lstrip r else s
  end.

Fixpoint rstrip (s : string) : string :=
  match s with
  | "" => ""
  | String c r =>
      match rstrip r with
      | "" => if isspace c then "" else String c ""
      | r' => String c r'
      end
  end.

(** [s.strip()] *)
Definition strip (s : string) : string := rstrip (lstrip s).

Definition lower_char (c : ascii) : ascii :=
  let n := N_of_ascii c in
  if ((65 <=? n) && (n <=? 90)
      || (192 <=? n) && (n <=? 222) && negb (n =? 215))%N
  then ascii_of_N (n + 32) else c.

(** [s.lower()] *)
Fixpoint lower (s : string) : string :=
  match s with
  | "" => ""
  | String c r => String (lower_char c) (lower r)
  end.

(** [c in s] for a one-character [c]. *)
Fixpoint contains (c : ascii) (s : string) : bool :=
  match s with
  | "" => false
  | String d r => if decide (c = d) then true else contains c r
  end.

(** [sep.join(l)] *)
Fixpoint join (sep : string) (l : list string) : string :=
  match l with
  | [] => ""
  | [x] => x
  | x :: r => x +:+ sep +:+ join sep r
  end.

(** [sorted(l, key=key)]: the sort is stable, so an element goes in front
    of the first one whose key is not smaller. *)
Section Sorted.
Context {A : Type} (key : A → string).

Fixpoint insert_by (x : A) (l : list A) : list A :=
  match l with
  | [] => [x]
  | y :: r =>
      if String.leb (key x) (key y) then x :: l else y :: insert_by x r
  end.

Definition sorted_by (l : list A) : list A := foldr insert_by [] l.
End Sorted.

(** [sorted(l)] on strings: code point order. *)
Definition sorted (l : list string) : list string := sorted_by id l.

(** ["0" * k] *)
Fixpoint zeros (k : nat) : string :=
  match k with
  | 0 => ""
  | S k => String "0" (zeros k)
  end.

(** [f"{n:04d}"]: the decimal digits of [n], with zeros in front up to a
    width of four. *)
Definition format_04d (n : nat) : string :=
  let s := NilEmpty.string_of_uint (Nat.to_uint n) in
  zeros (4 - String.length s) +:+ s.

(** The test [$] of [re] at the position where [s] is what remains: at the
    end, or in front of a newline that ends the string. *)
Definition at_dollar (s : string) : bool :=
  match s with
  | "" => true
  | String c "" => bool_decide (c = "010"%char)
  | _ => false
  end.

(** [\d+$] matched at the start of [s]; on success, what follows the
    digits. *)
Fixpoint digits_dollar (s : string) : option string :=
  match s with
  | "" => None
  | String c r =>
      if isdigit c then
        match digits_dollar r with
        | Some rest => Some rest
        | None => if at_dollar r then Some r else None
        end
      else None
  end.

(** [re.sub(r'-\d+$', '', s)] *)
Fixpoint sub_suffix (s : string) : string :=
  match s with
  | "" => ""
  | String c r =>
      if decide (c = "-"%char) then
        match digits_dollar r with
        | Some rest => rest
        | None => String c (sub_suffix r)
        end
      else String c (sub_suffix r)
  end.

End Py.

(** ** Insertion-ordered dictionaries *)

Definition dict (V : Type) : Type := list (string * V).

(** [d[k]] / [k in d] *)
Fixpoint dict_get {V} (k : string) (d : dict V) : option V :=
  match d with
  | [] => None
  | (k', v) :: r => if decide (k = k') then Some v else dict_get k r
  end.

(** [d[k] = v]: an existing key keeps its place, a new one goes last. *)
Fixpoint dict_set {V} (k : string) (v : V) (d : dict V) : dict V :=
  match d with
  | [] => [(k, v)]
  | (k', v') :: r =>
      if decide (k = k') then (k, v) :: r else (k', v') :: dict_set k v r
  end.

(** ** Iteration order of a set

    [for term in term_set] and [sorted(cleaned_terms, key=...)] walk a set in
    an order the language leaves open; all that is known is that every
    element comes once. *)

Class SetOrder := {
  set_iter : gset string → list string;
  set_iter_perm : ∀ X, set_iter X ≡ₚ elements X
}.

(** ** generar_lista_id.py *)

Definition normalize_term (term : string) : string := Py.strip term.

(** [set(normalize_term(t) for t in terms if normalize_term(t))] *)
Definition normalized_set (terms : list string) : gset string :=
  list_to_set (filter (λ t, t ≠ "") (normalize_term <$> terms)).

(** PASO 1, one turn of the loop over [siglas_json.items()]. *)
Definition canonical_step (concepts : list (gset string))
    (item : string * list string) : list (gset string) :=
  let terms := item.1 :: item.2 in
  let normalized := normalized_set terms in
  if decide (normalized = ∅) then concepts else concepts ++ [normalized].

(** The inner [for i, existing_concept in enumerate(concepts)] of PASO 2 and
    PASO 3: [Some] of the updated list when the loop leaves through [break]
    ([merged = True]), [None] when it runs to its end. *)
Fixpoint merge_scan (normalized : gset string) (concepts : list (gset string))
    : option (list (gset string)) :=
  match concepts with
  | [] => None
  | existing_concept :: rest =>
      if decide (normalized ∩ existing_concept = ∅)
      then (existing_concept ::.) <$> merge_scan normalized rest
      else Some ((existing_concept ∪ normalized) :: rest)
  end.

(** The body shared by the loops of PASO 2 and PASO 3, from the normalized
    set on. *)
Definition merge_set (concepts : list (gset string)) (normalized : gset string)
    : list (gset string) :=
  if decide (normalized = ∅) then concepts
  else match merge_scan normalized concepts with
       | Some concepts' => concepts'
       | None => concepts ++ [normalized]
       end.

(** PASO 2, one turn of the loop over [sinonimos]. *)
Definition merge_step (concepts : list (gset string))
    (synonym_list : list string) : list (gset string) :=
  merge_set concepts (normalized_set synonym_list).

(** PASO 3, one turn of the loop over [siglas_csv]. *)
Definition csv_step (concepts : list (gset string))
    (row : string * string) : list (gset string) :=
  merge_set concepts (normalized_set [row.1; row.2]).

(** The list [concepts] when the three loops are done. *)
Definition cluster (sinonimos : list (list string))
    (siglas_json : dict (list string)) (siglas_csv : list (string * string))
    : list (gset string) :=
  foldl csv_step
    (foldl merge_step (foldl canonical_step [] siglas_json) sinonimos)
    siglas_csv.

(** [f"C{idx:04d}"] *)
Definition concept_id (idx : nat) : string := "C" +:+ Py.format_04d idx.

(** The set [cleaned_terms] of one concept. *)
Definition cleaned_terms (term_set : gset string) : gset string :=
  set_map Py.sub_suffix term_set.

Section BuildConceptMap.
Context `{SetOrder}.

(** [sorted(cleaned_terms, key=lambda x: x.lower())] *)
Definition terms_list (term_set : gset string) : list string :=
  Py.sorted_by Py.lower (set_iter (cleaned_terms term_set)).

(** The loop over [enumerate(concepts, start=1)], with [idx] the number of
    the first concept of [concepts]. *)
Fixpoint number_concepts (idx : nat) (concepts : list (gset string))
    (concept_map : dict (list string)) : dict (list string) :=
  match concepts with
  | [] => concept_map
  | term_set :: rest =>
      number_concepts (S idx) rest
        (dict_set (concept_id idx) (terms_list term_set) concept_map)
  end.

Definition build_concept_map (sinonimos : list (list string))
    (siglas_json : dict (list string)) (siglas_csv : list (string * string))
    : dict (list string) :=
  number_concepts 1 (cluster sinonimos siglas_json siglas_csv) [].
End BuildConceptMap.

(** Two orders to run the model with: the one of [elements], and its
    reverse. *)
Definition elements_order : SetOrder :=
  {| set_iter := elements; set_iter_perm := λ X, reflexivity _ |}.

Definition reverse_order : SetOrder :=
  {| set_iter := λ X, reverse (elements X);
     set_iter_perm := λ X, reverse_Permutation (elements X) |}.

(** ** generar_indice_invertido.py *)

Record entry := Entry { concept_ids : list string; is_ambiguous : bool }.

(** [term_to_concepts[term_normalized].add(concept_id)], guarded by
    [if term_normalized], on a [defaultdict(set)]. *)
Definition add_term (concept_id : string)
    (term_to_concepts : gmap string (gset string)) (term : string)
    : gmap string (gset string) :=
  let term_normalized := Py.strip term in
  if decide (term_normalized = "") then term_to_concepts
  else <[term_normalized :=
           default ∅ (term_to_concepts !! term_normalized) ∪ {[concept_id]}]>
         term_to_concepts.

(** The two nested loops over [synonyms.items()] and [terms]. *)
Definition term_to_concepts (synonyms : dict (list string))
    : gmap string (gset string) :=
  foldl (λ m item, foldl (add_term item.1) m item.2) ∅ synonyms.

(** One turn of [for term, concept_ids in sorted(term_to_concepts.items())]. *)
Definition index_step (inverted_index : dict entry)
    (item : string * gset string) : dict entry :=
  let concept_list := Py.sorted (elements item.2) in
  dict_set item.1
    {| concept_ids := concept_list;
       is_ambiguous := bool_decide (1 < length concept_list) |}
    inverted_index.

(** The keys of [term_to_concepts] are distinct, so [sorted] compares the
    items by their terms alone, and the walks [map_to_list] and [elements]
    stand for meet no ties: the sorted results do not depend on them
    ([sorted_by_perm] below). *)
Definition build_inverted_index (synonyms : dict (list string)) : dict entry :=
  foldl index_step []
    (Py.sorted_by fst (map_to_list (term_to_concepts synonyms))).

(** ** ejemplo_busqueda.py *)

Record result := Result {
  original : string;
  found : bool;
  res_is_ambiguous : bool;
  res_concept_ids : list string;
  expanded_terms : gset string;
  query : string
}.

(** [f'"{t}"'] *)
Definition dquote : string := String "034"%char "".

Definition quoted (t : string) : string := dquote +:+ t +:+ dquote.

(** [f'"{t}"' if ' ' in t else t] *)
Definition quote_spaced (t : string) : string :=
  if Py.contains " " t then quoted t else t.

(** The loop [for concept_id in result['concept_ids']] filling
    [all_synonyms]. *)
Definition collect_synonyms (synonyms : dict (list string))
    (ids : list string) : gset string :=
  foldl (λ all_synonyms concept_id,
           match dict_get concept_id synonyms with
           | Some terms => all_synonyms ∪ list_to_set terms
           | None => all_synonyms
           end) ∅ ids.

(** [SynonymExpander.expand_term], with the two fields of [self] as
    arguments. *)
Definition expand_term (synonyms : dict (list string))
    (inverted_index : dict entry) (term : string) : result :=
  match dict_get term inverted_index with
  | None =>
      {| original := term; found := false; res_is_ambiguous := false;
         res_concept_ids := []; expanded_terms := {[term]};
         query := quoted term |}
  | Some index_data =>
      let all_synonyms := collect_synonyms synonyms (concept_ids index_data) in
      {| original := term; found := true;
         res_is_ambiguous := is_ambiguous index_data;
         res_concept_ids := concept_ids index_data;
         expanded_terms := all_synonyms;
         query :=
           if bool_decide (0 < size all_synonyms) then
             "(" +:+ Py.join " OR "
                       (quote_spaced <$> Py.sorted (elements all_synonyms))
                 +:+ ")"
           else term |}
  end.

(** [SynonymExpander.expand_query] *)
Definition expand_query (synonyms : dict (list string))
    (inverted_index : dict entry) (query : string) : result :=
  expand_term synonyms inverted_index (Py.strip query).

(** *** generate_statistics (generar_indice_invertido.py) *)

Module GenerarIndice.

(** The dictionary [generate_statistics] returns. *)
Record statistics := Statistics {
  total_terms : Z;
  unambiguous_terms : Z;
  ambiguous_terms : Z;
  most_ambiguous_term : option string;
  max_concepts_per_term : Z
}.

(** One turn of the loop that looks for the term with most concepts; the
    state is [(max_concepts, most_ambiguous_term)]. *)
Definition most_ambiguous_step (state : Z * option string)
    (item : string * entry) : Z * option string :=
  let num_concepts := Z.of_nat (length (concept_ids item.2)) in
  if bool_decide (num_concepts > state.1)%Z
  then (num_concepts, Some item.1)
  else state.

Definition generate_statistics (inverted_index : dict entry) : statistics :=
  let total_terms := Z.of_nat (length inverted_index) in
  let ambiguous_terms :=
    foldl Z.add 0%Z
      ((λ _, 1%Z) <$> filter (λ item, is_ambiguous item.2 = true)
                        (inverted_index : list (string * entry))) in
  let unambiguous_terms := (total_terms - ambiguous_terms)%Z in
  let final := foldl most_ambiguous_step (0%Z, None) inverted_index in
  {| total_terms := total_terms;
     unambiguous_terms := unambiguous_terms;
     ambiguous_terms := ambiguous_terms;
     most_ambiguous_term := final.2;
     max_concepts_per_term := final.1 |}.

End GenerarIndice.

(** *** create_concept_signature (generar_lista_id.py) *)

(** [list(set(...))], then [normalized.sort(key=lambda x: x.lower())]; the
    tuple returned is the sorted list. *)
Definition create_concept_signature `{SetOrder} (terms : list string)
    : list string :=
  Py.sorted_by Py.lower (set_iter (normalized_set terms)).

(** *** More built-ins, for the loaders *)

Module PyStr.

(** [s.startswith(c)] for a one-character [c]. *)
Definition startswith (c : ascii) (s : string) : bool :=
  match s with
  | "" => false
  | String d _ => bool_decide (d = c)
  end.

(** [s.endswith(c)] for a one-character [c]. *)
Fixpoint endswith (c : ascii) (s : string) : bool :=
  match s with
  | "" => false
  | String d "" => bool_decide (d = c)
  | String _ r => endswith c r
  end.

(** [s[:-1]] *)
Fixpoint drop_last (s : string) : string :=
  match s with
  | "" => ""
  | String _ "" => ""
  | String c r => String c (drop_last r)
  end.

(** [s[1:-1]] *)
Definition slice_1_m1 (s : string) : string :=
  match s with
  | "" => ""
  | String _ r => drop_last r
  end.

(** [for line in f], with [f] opened in text mode and the default
    [newline=None]: the content is cut after every line break, and every line
    keeps its break, which is read as a line feed whether the file has a line
    feed, a carriage return or the two in a row.  [current] is the line read
    so far. *)
Fixpoint text_lines_go (content current : string) : list string :=
  match content with
  | "" => if decide (current = "") then [] else [current]
  | String c rest =>
      if decide (c = "010"%char) then
        (current +:+ String "010" "") :: text_lines_go rest ""
      else if decide (c = "013"%char) then
        (current +:+ String "010" "")
        :: match rest with
           | "" => []
           | String d rest' =>
               if decide (d = "010"%char) then text_lines_go rest' ""
               else text_lines_go rest ""
           end
      else text_lines_go rest (current +:+ String c "")
  end.

Definition text_lines (content : string) : list string :=
  text_lines_go content "".

End PyStr.

(** *** load_sinonimos_yml (generar_lista_id.py), from the lines of the file *)

(** [if current_item.strip(): items.append(current_item.strip())] *)
Definition flush_item (items : list string) (current_item : string)
    : list string :=
  if decide (Py.strip current_item = "") then items
  else items ++ [Py.strip current_item].

(** The loop [for char in content], followed by the statement that adds the
    last item; [in_quotes] stays [False] throughout. *)
Fixpoint split_items (content : string) (items : list string)
    (current_item : string) : list string :=
  match content with
  | "" => flush_item items current_item
  | String char rest =>
      if decide (char = ","%char)
      then split_items rest (flush_item items current_item) ""
      else split_items rest items (current_item +:+ String char "")
  end.

(** One turn of the loop over the lines of the file. *)
Definition sinonimos_step (sinonimos : list (list string)) (line : string)
    : list (list string) :=
  let line := Py.strip line in
  if PyStr.startswith "[" line && PyStr.endswith "]" line then
    let content := PyStr.slice_1_m1 line in
    let items := split_items content [] "" in
    if decide (items = []) then sinonimos else sinonimos ++ [items]
  else sinonimos.

Definition load_sinonimos_yml (lines : list string) : list (list string) :=
  foldl sinonimos_step [] lines.

(** *** load_siglas_csv (generar_lista_id.py), from the rows of the reader

    A row of [csv.DictReader] maps a field name to its value, or to [None]
    where the line is short. *)

(** The field name [Expansión]; the accented letter is code point 243. *)
Definition expansion_field : string := "Expansi" +:+ String "243" "n".

Definition csv_row_step (rows : list (string * string))
    (row : dict (option string)) : list (string * string) :=
  match dict_get "Sigla" row, dict_get expansion_field row with
  | Some sigla, Some expansion =>
      match sigla, expansion with
      | Some sigla, Some expansion =>
          let sigla := Py.strip sigla in
          let expansion := Py.strip expansion in
          if decide (sigla ≠ "" ∧ expansion ≠ "")
          then rows ++ [(sigla, expansion)]
          else rows
      | _, _ => rows
      end
  | _, _ => rows
  end.

Definition load_siglas_csv (reader : list (dict (option string)))
    : list (string * string) :=
  foldl csv_row_step [] reader.

(** *** parse_siglas_multiples (crear_siglas_medicas.py), from the lines of
    the file *)

Module CrearSiglas.

(** [s.split(c)] for a one-character [c]; [current] is the part being read. *)
Fixpoint split_go (c : ascii) (s : string) (current : string) : list string :=
  match s with
  | "" => [current]
  | String d r =>
      if decide (d = c) then current :: split_go c r ""
      else split_go c r (current +:+ String d "")
  end.

Definition split (c : ascii) (s : string) : list string := split_go c s "".

(** [s.split(c, 1)]: one part when [c] is not in [s], two otherwise. *)
Fixpoint split_max1_go (c : ascii) (s : string) (current : string)
    : list string :=
  match s with
  | "" => [current]
  | String d r =>
      if decide (d = c) then [current; r]
      else split_max1_go c r (current +:+ String d "")
  end.

Definition split_max1 (c : ascii) (s : string) : list string :=
  split_max1_go c s "".

(** [f"{n}"] *)
Definition str_of_nat (n : nat) : string :=
  NilEmpty.string_of_uint (Nat.to_uint n).

(** [expansion_groups]: a [defaultdict(set)] keyed by tuples, in insertion
    order. *)
Definition groups : Type := list (list string * gset string).

(** [expansion_groups[expansion_key].add(sigla)] *)
Fixpoint groups_add (expansion_key : list string) (sigla : string)
    (expansion_groups : groups) : groups :=
  match expansion_groups with
  | [] => [(expansion_key, {[sigla]})]
  | (key, siglas) :: rest =>
      if decide (expansion_key = key) then (key, siglas ∪ {[sigla]}) :: rest
      else (key, siglas) :: groups_add expansion_key sigla rest
  end.

(** One turn of the loop over the lines; [None] stands for the [IndexError]
    of [parts[1]]. *)
Definition line_step (expansion_groups : groups) (line : string)
    : option groups :=
  let line := Py.strip line in
  if decide (line = "") then Some expansion_groups
  else if negb (Py.contains ":" line) then Some expansion_groups
  else
    match split_max1 ":" line with
    | part0 :: part1 :: _ =>
        let sigla := Py.strip part0 in
        let expansiones_str := Py.strip part1 in
        let expansiones := Py.strip <$> split "," expansiones_str in
        let expansion_key := Py.sorted expansiones in
        Some (groups_add expansion_key sigla expansion_groups)
    | _ => None
    end.

Fixpoint read_lines (expansion_groups : groups) (lines : list string)
    : option groups :=
  match lines with
  | [] => Some expansion_groups
  | line :: rest =>
      expansion_groups' ← line_step expansion_groups line;
      read_lines expansion_groups' rest
  end.

(** One turn of the loop over [expansion_groups.items()]; the state is
    [(siglas_dict, concept_counter)], and [None] stands for the [IndexError]
    of [siglas_list[0]]. *)
Definition group_step (state : dict (list string) * gmap string nat)
    (item : list string * gset string)
    : option (dict (list string) * gmap string nat) :=
  let siglas_dict := state.1 in
  let concept_counter := state.2 in
  let expansiones_list := item.1 in
  let siglas_list := Py.sorted (elements item.2) in
  let terminos := siglas_list ++ expansiones_list in
  match siglas_list with
  | [] => None
  | primary_sigla :: _ =>
      match dict_get primary_sigla siglas_dict with
      | Some _ =>
          let count := default 0 (concept_counter !! primary_sigla) + 1 in
          let key := primary_sigla +:+ "-" +:+ str_of_nat count in
          Some (dict_set key terminos siglas_dict,
                <[primary_sigla := count]> concept_counter)
      | None =>
          Some (dict_set primary_sigla terminos siglas_dict,
                <[primary_sigla := 1]> concept_counter)
      end
  end.

Fixpoint name_groups (state : dict (list string) * gmap string nat)
    (expansion_groups : groups)
    : option (dict (list string) * gmap string nat) :=
  match expansion_groups with
  | [] => Some state
  | item :: rest =>
      state' ← group_step state item;
      name_groups state' rest
  end.

Definition parse_siglas_multiples (lines : list string)
    : option (dict (list string)) :=
  expansion_groups ← read_lines [] lines;
  state ← name_groups ([], ∅) expansion_groups;
  Some state.1.

End CrearSiglas.

(** *** main (refine_filter_and_update.py), from the rows of the reader to
    the rows written back; the text file written besides is left out *)

Module RefineFilter.

(** [s.startswith(pat)] *)
Fixpoint starts_with (pat s : string) : bool :=
  match pat, s with
  | "", _ => true
  | String _ _, "" => false
  | String p pat', String c s' => bool_decide (p = c) && starts_with pat' s'
  end.

(** [pat in s] *)
Fixpoint infix (pat s : string) : bool :=
  starts_with pat s
  || match s with
     | "" => false
     | String _ s' => infix pat s'
     end.

(** The four criteria of the loop, joined by [or]. *)
Definition to_modify (sigla expansion : string) : bool :=
  let is_multiple_def := infix "1)" expansion || infix "2)" expansion in
  let is_multiple_sigla := infix " / " sigla || infix "/" expansion in
  let is_translation := infix ("ingl" +:+ String "233" "s") expansion in
  let has_parenthesis := infix "(" expansion || infix ")" expansion in
  is_multiple_def || is_multiple_sigla || is_translation || has_parenthesis.

(** One turn of the loop over [data_rows]; the state is
    [(filtered_rows, rows_to_keep)]. *)
Definition row_step (state : list (string * string) * list (list string))
    (row : list string) : list (string * string) * list (list string) :=
  match row with
  | cell0 :: cell1 :: _ =>
      let sigla := Py.strip cell0 in
      let expansion := Py.strip cell1 in
      if to_modify sigla expansion
      then (state.1 ++ [(sigla, expansion)], state.2)
      else (state.1, state.2 ++ [row])
  | _ => (state.1, state.2 ++ [row])
  end.

(** The sorted [filtered_rows] and the rows written to the CSV file; [None]
    stands for the [IndexError] of [all_rows[0]]. *)
Definition main (all_rows : list (list string))
    : option (list (string * string) * list (list string)) :=
  match all_rows with
  | [] => None
  | header :: data_rows =>
      let final := foldl row_step ([], []) data_rows in
      Some (Py.sorted_by (λ x, Py.lower x.1) final.1, header :: final.2)
  end.

End RefineFilter.

(** ** Vocabulary of the statements *)

(** The order [sorted(..., key=key)] establishes. *)
Definition key_le {A} (key : A → string) (x y : A) : Prop :=
  String.le (key x) (key y).

(** A string that [strip] leaves alone: no white space at either end. *)
Definition stripped (t : string) : Prop := Py.strip t = t.

(** The number a concept identifier carries. *)
Definition id_number (cid : string) : option nat :=
  match cid with
  | String "C" digits => Nat.of_uint <$> NilEmpty.uint_of_string digits
  | _ => None
  end.

(** The Concept Map as the list of its entries, numbered from [idx]. *)
Fixpoint concept_entries `{SetOrder} (idx : nat) (concepts : list (gset string))
    : dict (list string) :=
  match concepts with
  | [] => []
  | term_set :: rest =>
      (concept_id idx, terms_list term_set) :: concept_entries (S idx) rest
  end.

(** The normalized term sets of the raw groups, in the order the three loops
    take them: canonical ones, then sinónimos, then the CSV rows. *)
Definition canonical_sets (siglas_json : dict (list string))
    : list (gset string) :=
  (λ item, normalized_set (item.1 :: item.2)) <$> siglas_json.

Definition mergeable_sets (sinonimos : list (list string))
    (siglas_csv : list (string * string)) : list (gset string) :=
  (normalized_set <$> sinonimos)
  ++ ((λ row, normalized_set [row.1; row.2]) <$> siglas_csv).

(** Every term the input holds, normalized. *)
Definition all_terms (sinonimos : list (list string))
    (siglas_json : dict (list string)) (siglas_csv : list (string * string))
    : gset string :=
  ⋃ (canonical_sets siglas_json ++ mergeable_sets sinonimos siglas_csv).

(** The raw terms of the input, as the three sources give them: of every
    canonical entry its key and its terms, the items of every list of
    sinónimos, the two cells of every CSV row. *)
Definition raw_terms (sinonimos : list (list string))
    (siglas_json : dict (list string)) (siglas_csv : list (string * string))
    : list string :=
  mjoin ((λ item, item.1 :: item.2) <$> siglas_json)
  ++ mjoin sinonimos
  ++ mjoin ((λ row, [row.1; row.2]) <$> siglas_csv).

(** No term in two of the sets. *)
Fixpoint pairwise_disjoint (sets : list (gset string)) : Prop :=
  match sets with
  | [] => True
  | X :: rest => Forall (λ Y, X ## Y) rest ∧ pairwise_disjoint rest
  end.

#[global] Instance pairwise_disjoint_dec sets : Decision (pairwise_disjoint sets).
Proof. induction sets; simpl; apply _. Defined.

(** [normalized] shares a term with one active concept at most. *)
Definition meets_at_most_one (normalized : gset string)
    (concepts : list (gset string)) : Prop :=
  length (filter (λ X, normalized ∩ X ≠ ∅) concepts) ≤ 1.

#[global] Instance meets_at_most_one_dec normalized concepts :
  Decision (meets_at_most_one normalized concepts).
Proof. unfold meets_at_most_one. apply _. Defined.

(** Along the run of the merging loops from [concepts] on, every set meets
    one concept at most when its turn comes. *)
Fixpoint single_matches (concepts : list (gset string))
    (sets : list (gset string)) : Prop :=
  match sets with
  | [] => True
  | normalized :: rest =>
      meets_at_most_one normalized concepts
      ∧ single_matches (merge_set concepts normalized) rest
  end.

#[global] Instance single_matches_dec concepts sets :
  Decision (single_matches concepts sets).
Proof.
  revert concepts. induction sets; intros concepts; simpl; apply _.
Defined.

(** Case-insensitive order with ties settled by the order of the strings
    themselves. *)
Definition ci_natural_le (a b : string) : Prop :=
  strict String.le (Py.lower a) (Py.lower b)
  ∨ (Py.lower a = Py.lower b ∧ String.le a b).

(** The index entry made from the set of identifiers of a term. *)
Definition index_entry (ids : gset string) : entry :=
  let concept_list := Py.sorted (elements ids) in
  {| concept_ids := concept_list;
     is_ambiguous := bool_decide (1 < length concept_list) |}.

(** [m] lists the identifier [c] under the key [k]. *)
Definition lists_under (m : gmap string (gset string)) (k c : string) : Prop :=
  ∃ ids, m !! k = Some ids ∧ c ∈ ids.

(** A term that holds a white-space character of any kind. *)
Fixpoint contains_whitespace (t : string) : bool :=
  match t with
  | "" => false
  | String c r => Py.isspace c || contains_whitespace r
  end.

(** Quoting decided by white space of any kind, where the code looks for
    the blank alone. *)
Definition quote_whitespace (t : string) : string :=
  if contains_whitespace t then quoted t else t.

(** The Concept Map [synonyms] has the term [t] among the members of an
    entry with the identifier [c]. *)
Definition concept_has (synonyms : dict (list string)) (c t : string) : Prop :=
  ∃ terms, (c, terms) ∈ synonyms ∧ t ∈ terms.

(** The non-empty stripped forms of the members of a Concept Map. *)
Definition stripped_members (synonyms : dict (list string)) : gset string :=
  list_to_set (filter (λ t, t ≠ "") (Py.strip <$> mjoin synonyms.*2)).

(** An item as [load_sinonimos_yml] yields them: not empty, no white space
    at either end, no comma. *)
Definition clean_item (t : string) : Prop :=
  t ≠ "" ∧ stripped t ∧ Py.contains "," t = false.

#[global] Instance clean_item_dec t : Decision (clean_item t).
Proof. unfold clean_item, stripped. apply _. Defined.

(** A string without a line break, neither a line feed nor a carriage
    return. *)
Definition line_break_free (t : string) : Prop :=
  Py.contains "010" t = false ∧ Py.contains "013" t = false.

#[global] Instance line_break_free_dec t : Decision (line_break_free t).
Proof. unfold line_break_free. apply _. Defined.

(** An item that can be written on a line of sinónimos.yml and read back:
    a clean item without a line break. *)
Definition line_item (t : string) : Prop := clean_item t ∧ line_break_free t.

#[global] Instance line_item_dec t : Decision (line_item t).
Proof. unfold line_item. apply _. Defined.

(** The items [items] between brackets, separated by a comma and a blank,
    with a line feed at the end.  The text is one line of a file when no item
    holds a line break; an item with a line break spreads it over several
    lines. *)
Definition sinonimos_line (items : list string) : string :=
  "[" +:+ Py.join ", " items +:+ "]" +:+ String "010" "".

(** The content of the file that has the text of [sinonimos_line] for every
    group, one after the other. *)
Definition sinonimos_file (groups : list (list string)) : string :=
  foldr (λ group rest, sinonimos_line group +:+ rest) "" groups.

(** What a line of siglas_multiples.txt contributes: its sigla and the
    sorted tuple of its expansions; nothing for a blank line or one without a
    colon. *)
Definition line_entry (line : string) : option (string * list string) :=
  let line := Py.strip line in
  if decide (line = "") then None
  else if negb (Py.contains ":" line) then None
  else
    match CrearSiglas.split_max1 ":" line with
    | part0 :: part1 :: _ =>
        Some (Py.strip part0,
              Py.sorted (Py.strip <$> CrearSiglas.split "," (Py.strip part1)))
    | _ => None
    end.

(** The key [parse_siglas_multiples] gives to a further group of a sigla. *)
Definition suffixed (primary : string) (count : nat) : string :=
  primary +:+ "-" +:+ CrearSiglas.str_of_nat count.

(** The entry [parse_siglas_multiples] makes of a group: the sorted siglas,
    then the expansions, under the first sigla or that sigla with a
    counter. *)
Definition entry_of_group (expansion_groups : CrearSiglas.groups)
    (key : string) (terminos : list string) : Prop :=
  ∃ expansion_key siglas primary rest,
    (expansion_key, siglas) ∈ expansion_groups
    ∧ Py.sorted (elements siglas) = primary :: rest
    ∧ terminos = (primary :: rest) ++ expansion_key
    ∧ (key = primary ∨ ∃ count, 1 ≤ count ∧ key = suffixed primary count).




(** No sigla of the file ends in a hyphen and digits. *)
Definition no_suffixed_sigla (lines : list string) : Prop :=
  Forall (λ line, match line_entry line with
                  | Some (sigla, _) => Py.sub_suffix sigla = sigla
                  | None => True
                  end) lines.

#[global] Instance no_suffixed_sigla_dec lines :
  Decision (no_suffixed_sigla lines).
Proof.
  unfold no_suffixed_sigla. apply Forall_dec. intros line.
  destruct (line_entry line) as [[? ?]|]; apply _.
Defined.

(** A data row that [refine_filter_and_update] leaves in the CSV file. *)
Definition row_stays (row : list string) : Prop :=
  match row with
  | cell0 :: cell1 :: _ =>
      RefineFilter.to_modify (Py.strip cell0) (Py.strip cell1) = false
  | _ => True
  end.

#[global] Instance row_stays_dec row : Decision (row_stays row).
Proof. unfold row_stays. destruct row as [|? [|? ?]]; apply _. Defined.

(** The pair a row is listed as when it is taken out. *)
Definition row_pair (row : list string) : string * string :=
  (Py.strip (default "" (row !! 0)), Py.strip (default "" (row !! 1))).

(** The run the specification describes for the mergeable groups, on their
    normalized sets in the order sinónimos, then CSV: a set that is empty is
    passed over; a set that shares a term with an active concept is united
    with the first such concept, in creation order, and nothing else changes;
    a set that shares no term is appended as a new concept. *)
Inductive first_match_run
    : list (gset string) → list (gset string) → list (gset string) → Prop :=
  | run_done active :
      first_match_run active [] active
  | run_skip active sets final :
      first_match_run active sets final →
      first_match_run active (∅ :: sets) final
  | run_merge active normalized sets final i existing :
      normalized ≠ ∅ →
      active !! i = Some existing →
      normalized ∩ existing ≠ ∅ →
      (∀ j other, j < i → active !! j = Some other →
                  normalized ∩ other = ∅) →
      first_match_run (<[i := existing ∪ normalized]> active) sets final →
      first_match_run active (normalized :: sets) final
  | run_append active normalized sets final :
      normalized ≠ ∅ →
      (∀ existing, existing ∈ active → normalized ∩ existing = ∅) →
      first_match_run (active ++ [normalized]) sets final →
      first_match_run active (normalized :: sets) final.

(** * Properties *)

(** ** Built-ins *)

Lemma lstrip_idemp s : Py.lstrip (Py.lstrip s) = Py.lstrip s.
Proof.
  induction s as [|c r IH]; simpl; [done|].
  destruct (Py.isspace c) eqn:E; [done|]. simpl. by rewrite E.
Qed.

Lemma rstrip_idemp s : Py.rstrip (Py.rstrip s) = Py.rstrip s.
Proof.
  induction s as [|c r IH]; simpl; [done|].
  destruct (Py.rstrip r) as [|d r'] eqn:E.
  - destruct (Py.isspace c) eqn:Ec; simpl; [done|]. by rewrite Ec.
  - simpl in *. by rewrite IH.
Qed.

Lemma rstrip_head c r :
  Py.isspace c = false → ∃ r', Py.rstrip (String c r) = String c r'.
Proof. intros Hc. simpl. destruct (Py.rstrip r); rewrite ?Hc; eauto. Qed.

Lemma lstrip_head s :
  Py.lstrip s = "" ∨ ∃ c r, Py.lstrip s = String c r ∧ Py.isspace c = false.
Proof.
  induction s as [|c r IH]; simpl; [by left|].
  destruct (Py.isspace c) eqn:E; [done|]. right. eauto.
Qed.

Lemma strip_idemp s : Py.strip (Py.strip s) = Py.strip s.
Proof.
  unfold Py.strip.
  destruct (lstrip_head s) as [->|(c & r & -> & Hc)]; [done|].
  destruct (rstrip_head c r Hc) as [r' Hr].
  pose proof (rstrip_idemp (String c r)) as Hi. rewrite Hr in Hi.
  rewrite Hr. cbn [Py.lstrip]. by rewrite Hc.
Qed.

Lemma NoDup_fmap_inj_on {A B} (f : A → B) (l : list A) x y :
  NoDup (f <$> l) → x ∈ l → y ∈ l → f x = f y → x = y.
Proof.
  induction l as [|a l IH]; csimpl; [by intros _ ?%elem_of_nil|].
  rewrite NoDup_cons, !elem_of_cons. intros [Ha Hl] [->|Hx] [->|Hy] E; auto.
  - destruct Ha. rewrite E. by apply list_elem_of_fmap_2.
  - destruct Ha. rewrite <-E. by apply list_elem_of_fmap_2.
Qed.

Section SortedFacts.
Context {A : Type} (key : A → string).

Lemma insert_by_perm x l : Py.insert_by key x l ≡ₚ x :: l.
Proof.
  induction l as [|y r IH]; simpl; [done|].
  destruct (String.leb _ _); [done|]. rewrite IH. apply Permutation_swap.
Qed.

Lemma sorted_by_perm l : Py.sorted_by key l ≡ₚ l.
Proof.
  induction l as [|x r IH]; simpl; [done|].
  rewrite insert_by_perm. by f_equiv.
Qed.

#[global] Instance key_le_trans : Transitive (key_le key).
Proof. intros x y z. unfold key_le. apply transitivity. Qed.

Lemma insert_by_sorted x l :
  StronglySorted (key_le key) l →
  StronglySorted (key_le key) (Py.insert_by key x l).
Proof.
  induction 1 as [|y r Hr IH Hy]; simpl.
  - repeat constructor.
  - destruct (String.leb (key x) (key y)) eqn:E.
    + apply Is_true_true_2 in E. constructor; [by constructor|].
      constructor; [done|].
      eapply Forall_impl; [exact Hy|]. intros z Hz.
      by trans y.
    + constructor; [done|]. rewrite insert_by_perm. constructor; [|done].
      destruct (total String.le (key x) (key y)) as [Hle|Hle]; [|done].
      apply Is_true_true_1 in Hle. unfold String.le in *. congruence.
Qed.

Lemma sorted_by_sorted l : StronglySorted (key_le key) (Py.sorted_by key l).
Proof.
  induction l; simpl; [constructor|]. by apply insert_by_sorted.
Qed.

(** Without ties the order of the input is immaterial. *)
Lemma sorted_by_unique l1 l2 :
  l1 ≡ₚ l2 → NoDup (key <$> l1) →
  Py.sorted_by key l1 = Py.sorted_by key l2.
Proof.
  intros Hp Hnd.
  apply (StronglySorted_unique_strong (key_le key));
    [|apply sorted_by_sorted..|by rewrite !sorted_by_perm].
  intros x y Hx Hy Hxy Hyx.
  rewrite sorted_by_perm in Hx. rewrite sorted_by_perm, <-Hp in Hy.
  apply (NoDup_fmap_inj_on key l1); [done..|].
  by apply (anti_symm String.le).
Qed.
End SortedFacts.

(** ** Dictionaries *)

Lemma dict_set_fresh {V} k (v : V) d :
  k ∉ d.*1 → dict_set k v d = d ++ [(k, v)].
Proof.
  induction d as [|[k' v'] d IH]; csimpl; [done|].
  rewrite not_elem_of_cons. intros [Hk Hd].
  rewrite decide_False by done. by rewrite IH.
Qed.

Lemma dict_get_Some_elem {V} k (v : V) d :
  dict_get k d = Some v → (k, v) ∈ d.
Proof.
  induction d as [|[k' v'] d IH]; simpl; [done|].
  case_decide; [intros [= ->]; subst; left|right; auto].
Qed.

Lemma dict_get_elem {V} k (v : V) d :
  NoDup d.*1 → (k, v) ∈ d → dict_get k d = Some v.
Proof.
  induction d as [|[k' v'] d IH]; csimpl; [by intros _ ?%elem_of_nil|].
  rewrite NoDup_cons, elem_of_cons. intros [Hk Hd] [[= -> ->]|Hin].
  - by rewrite decide_True.
  - rewrite decide_False; [auto|]. intros ->. apply Hk.
    by apply (list_elem_of_fmap_2 fst _ (k', v)).
Qed.

Lemma dict_get_None {V} k (d : dict V) : dict_get k d = None ↔ k ∉ d.*1.
Proof.
  induction d as [|[k' v'] d IH]; csimpl.
  - split; [intros _ ?%elem_of_nil|]; done.
  - rewrite not_elem_of_cons. case_decide as Hk.
    + split; [done|]. by intros [? _].
    + rewrite IH. split; [by intros ?|by intros [_ ?]].
Qed.

(** ** Concept identifiers *)

Lemma uint_of_zeros k d :
  NilEmpty.uint_of_string (Py.zeros k +:+ NilEmpty.string_of_uint d)
  = Some (Nat.iter k D0 d).
Proof.
  induction k as [|k IH]; simpl; [apply NilEmpty.usu|].
  change (String "0" (Py.zeros k) +:+ ?s) with (String "0" (Py.zeros k +:+ s)).
  simpl. by rewrite IH.
Qed.

Lemma of_uint_zeros k d : Nat.of_uint (Nat.iter k D0 d) = Nat.of_uint d.
Proof. induction k as [|k IH]; simpl; [done|]. exact IH. Qed.

Lemma id_number_concept_id n : id_number (concept_id n) = Some n.
Proof.
  unfold concept_id, Py.format_04d. cbn [id_number String.append].
  change ("C" +:+ ?s) with (String "C" s). cbn [id_number].
  rewrite uint_of_zeros. simpl. by rewrite of_uint_zeros, Unsigned.of_to.
Qed.

Lemma concept_id_inj n m : concept_id n = concept_id m → n = m.
Proof.
  intros E. apply (f_equal id_number) in E.
  rewrite !id_number_concept_id in E. congruence.
Qed.

Lemma length_zeros k : String.length (Py.zeros k) = k.
Proof. induction k; simpl; congruence. Qed.

Lemma string_length_app (s t : string) :
  String.length (s +:+ t) = String.length s + String.length t.
Proof.
  induction s as [|c s IH]; [done|].
  change (String c s +:+ t) with (String c (s +:+ t)). simpl. by rewrite IH.
Qed.

Lemma format_04d_width n : 4 ≤ String.length (Py.format_04d n).
Proof.
  unfold Py.format_04d. cbv zeta. rewrite string_length_app, length_zeros. lia.
Qed.

(** ** The numbering loop *)

Section Numbering.
Context `{SetOrder}.

Lemma concept_entries_keys idx concepts :
  (concept_entries idx concepts).*1
  = concept_id <$> seq idx (length concepts).
Proof.
  revert idx. induction concepts as [|X r IH]; intros idx; csimpl; [done|].
  by rewrite IH.
Qed.

Lemma concept_entries_lookup idx concepts i :
  concept_entries idx concepts !! i
  = (λ X, (concept_id (idx + i), terms_list X)) <$> concepts !! i.
Proof.
  revert idx i. induction concepts as [|X r IH]; intros idx [|i]; csimpl;
    [done..| |].
  - by rewrite Nat.add_0_r.
  - rewrite IH. by rewrite Nat.add_succ_r.
Qed.

Lemma number_concepts_entries idx concepts cm :
  (∀ k, k ∈ cm.*1 → ∃ m, m < idx ∧ k = concept_id m) →
  number_concepts idx concepts cm = cm ++ concept_entries idx concepts.
Proof.
  revert idx cm. induction concepts as [|X r IH]; intros idx cm Hcm; simpl.
  - by rewrite app_nil_r.
  - rewrite dict_set_fresh.
    + rewrite IH, <-app_assoc; [done|].
      intros k. rewrite fmap_app, elem_of_app. csimpl.
      rewrite list_elem_of_singleton. intros [Hk| ->].
      * destruct (Hcm k Hk) as (m & ? & ->). exists m. split; [lia|done].
      * exists idx. split; [lia|done].
    + intros Hin. destruct (Hcm _ Hin) as (m & Hm & E).
      apply concept_id_inj in E. lia.
Qed.

(** The identifiers never collide, so the assignments of the loop only add
    entries. *)
Lemma build_concept_map_entries sinonimos siglas_json siglas_csv :
  build_concept_map sinonimos siglas_json siglas_csv
  = concept_entries 1 (cluster sinonimos siglas_json siglas_csv).
Proof.
  unfold build_concept_map. rewrite number_concepts_entries; [done|].
  by intros k ?%elem_of_nil.
Qed.
End Numbering.

(** ** Normalized term sets *)

Lemma elem_of_normalized_set t terms :
  t ∈ normalized_set terms ↔ t ≠ "" ∧ ∃ u, u ∈ terms ∧ t = Py.strip u.
Proof.
  unfold normalized_set, normalize_term.
  rewrite elem_of_list_to_set, list_elem_of_filter, list_elem_of_fmap.
  split; (intros (? & u & ? & ?); split; [done|]; exists u; by split).
Qed.

Lemma normalized_set_stripped t terms :
  t ∈ normalized_set terms → stripped t ∧ t ≠ "".
Proof.
  rewrite elem_of_normalized_set. intros (Hne & u & _ & ->).
  split; [apply strip_idemp|done].
Qed.

Lemma normalized_set_empty terms :
  normalized_set terms = ∅ ↔ Forall (λ t, normalize_term t = "") terms.
Proof.
  rewrite Forall_forall. split.
  - intros E t Ht. destruct (decide (normalize_term t = "")) as [|Hne]; [done|].
    exfalso. apply (not_elem_of_empty (C:=gset string) (normalize_term t)).
    rewrite <-E. apply elem_of_normalized_set. eauto.
  - intros Hall. apply set_eq. intros t. rewrite elem_of_normalized_set.
    split; [|by intros ?%not_elem_of_empty].
    intros (Hne & u & Hu & ->). by destruct Hne; apply Hall.
Qed.

(** ** The scan for a concept to merge into *)

Lemma merge_scan_first normalized concepts i existing :
  concepts !! i = Some existing →
  normalized ∩ existing ≠ ∅ →
  (∀ j other, j < i → concepts !! j = Some other → normalized ∩ other = ∅) →
  merge_scan normalized concepts
  = Some (<[i := existing ∪ normalized]> concepts).
Proof.
  revert i. induction concepts as [|X r IH]; intros [|i] Hi Hmeet Hbefore;
    simplify_eq/=.
  - by rewrite decide_False.
  - rewrite decide_True by (apply (Hbefore 0 X); [lia|done]).
    rewrite (IH i); [done..|].
    intros j other Hj Hother. apply (Hbefore (S j) other); [lia|done].
Qed.

Lemma merge_scan_none normalized concepts :
  (∀ existing, existing ∈ concepts → normalized ∩ existing = ∅) →
  merge_scan normalized concepts = None.
Proof.
  induction concepts as [|X r IH]; intros Hall; simpl; [done|].
  rewrite decide_True by (apply Hall; left).
  rewrite IH; [done|]. intros ? ?. apply Hall. by right.
Qed.

(** Whatever the scan does, it is one of the two. *)
Lemma merge_scan_cases normalized concepts :
  (merge_scan normalized concepts = None
   ∧ ∀ existing, existing ∈ concepts → normalized ∩ existing = ∅)
  ∨ (∃ i existing,
       concepts !! i = Some existing ∧ normalized ∩ existing ≠ ∅
       ∧ (∀ j other, j < i → concepts !! j = Some other →
                     normalized ∩ other = ∅)
       ∧ merge_scan normalized concepts
         = Some (<[i := existing ∪ normalized]> concepts)).
Proof.
  induction concepts as [|X r IH]; simpl.
  - left. split; [done|]. by intros ? ?%elem_of_nil.
  - destruct (decide (normalized ∩ X = ∅)) as [HX|HX].
    + destruct IH as [[-> Hall]|(i & Y & Hi & HY & Hbefore & ->)].
      * left. split; [done|]. intros ? [->|?]%elem_of_cons; auto.
      * right. exists (S i), Y. split_and!; [done..| |done].
        intros [|j] other Hj Ho; simplify_eq/=; [done|].
        apply (Hbefore j); [lia|done].
    + right. exists 0, X. split_and!; [done..| |done]. intros; lia.
Qed.

(** A turn of the merging loops keeps every concept in its place and only
    lets it grow. *)
Lemma merge_set_grows concepts normalized i X :
  concepts !! i = Some X →
  ∃ Y, merge_set concepts normalized !! i = Some Y ∧ X ⊆ Y.
Proof.
  intros Hi. unfold merge_set. case_decide; [by exists X|].
  destruct (merge_scan_cases normalized concepts)
    as [[-> _]|(k & Z & Hk & _ & _ & ->)].
  - exists X. split; [|done]. by apply lookup_app_l_Some.
  - destruct (decide (k = i)) as [->|Hne].
    + simplify_eq. exists (X ∪ normalized). split; [|set_solver].
      apply list_lookup_insert_eq. by eapply lookup_lt_Some.
    + exists X. split; [|done]. by rewrite list_lookup_insert_ne.
Qed.

Lemma foldl_grows {B} (step : list (gset string) → B → list (gset string))
    (groups : list B) concepts i X :
  (∀ cs g j Z, cs !! j = Some Z → ∃ Y, step cs g !! j = Some Y ∧ Z ⊆ Y) →
  concepts !! i = Some X →
  ∃ Y, foldl step concepts groups !! i = Some Y ∧ X ⊆ Y.
Proof.
  intros Hstep. revert concepts X.
  induction groups as [|g r IH]; intros concepts X Hi; simpl.
  - by exists X.
  - destruct (Hstep concepts g i X Hi) as (Y & HY & HXY).
    destruct (IH _ _ HY) as (Z & HZ & HYZ). exists Z. split; [done|].
    set_solver.
Qed.

(** PASO 1 as a whole: the non-empty normalized sets, one concept each, in
    the order of the source. *)
Lemma canonical_phase siglas_json concepts :
  foldl canonical_step concepts siglas_json
  = concepts ++ filter (λ X, X ≠ ∅)
                  ((λ item, normalized_set (item.1 :: item.2)) <$> siglas_json).
Proof.
  revert concepts. induction siglas_json as [|item r IH]; intros concepts.
  - by rewrite app_nil_r.
  - csimpl. rewrite IH. unfold canonical_step at 1. cbv zeta.
    rewrite filter_cons. destruct (decide (normalized_set _ = ∅)) as [E|E].
    + by rewrite decide_False by (by intros ?).
    + rewrite decide_True by done. by rewrite <-app_assoc.
Qed.

Lemma merge_set_cases concepts normalized :
  merge_set concepts normalized = concepts
  ∨ (normalized ≠ ∅
     ∧ (∀ existing, existing ∈ concepts → normalized ∩ existing = ∅)
     ∧ merge_set concepts normalized = concepts ++ [normalized])
  ∨ (∃ i existing,
       normalized ≠ ∅
       ∧ concepts !! i = Some existing ∧ normalized ∩ existing ≠ ∅
       ∧ (∀ j other, j < i → concepts !! j = Some other →
                     normalized ∩ other = ∅)
       ∧ merge_set concepts normalized
         = <[i := existing ∪ normalized]> concepts).
Proof.
  unfold merge_set. case_decide as Hne; [by left|]. right.
  destruct (merge_scan_cases normalized concepts)
    as [[-> Hall]|(i & X & Hi & HX & Hbefore & ->)].
  - by left.
  - right. by exists i, X.
Qed.

(** The three loops as one fold over the normalized sets. *)
Lemma cluster_sets sinonimos siglas_json siglas_csv :
  cluster sinonimos siglas_json siglas_csv
  = foldl merge_set (filter (λ X, X ≠ ∅) (canonical_sets siglas_json))
      (mergeable_sets sinonimos siglas_csv).
Proof.
  unfold cluster, mergeable_sets. rewrite canonical_phase, foldl_app.
  rewrite !foldl_fmap. done.
Qed.

Lemma foldl_invariant {B} (I : list (gset string) → Prop)
    (step : list (gset string) → B → list (gset string)) groups concepts :
  I concepts →
  (∀ cs g, g ∈ groups → I cs → I (step cs g)) →
  I (foldl step concepts groups).
Proof.
  revert concepts. induction groups as [|g r IH]; intros concepts H0 Hstep;
    simpl; [done|].
  apply IH.
  - apply Hstep; [left|done].
  - intros cs g' Hg'. apply Hstep. by right.
Qed.

Lemma elem_of_all_terms_1 sinonimos siglas_json siglas_csv X :
  X ∈ canonical_sets siglas_json ++ mergeable_sets sinonimos siglas_csv →
  X ⊆ all_terms sinonimos siglas_json siglas_csv.
Proof.
  intros HX t Ht. unfold all_terms. apply elem_of_union_list. eauto.
Qed.

(** The engine invents no term: a concept holds normalized input terms. *)
Lemma cluster_subseteq sinonimos siglas_json siglas_csv X :
  X ∈ cluster sinonimos siglas_json siglas_csv →
  X ⊆ all_terms sinonimos siglas_json siglas_csv.
Proof.
  rewrite cluster_sets. revert X.
  set (U := all_terms _ _ _).
  change (∀ X, X ∈ ?l → X ⊆ U) with ((λ cs, ∀ X, X ∈ cs → X ⊆ U) l).
  apply foldl_invariant.
  - intros X [_ HX]%list_elem_of_filter.
    apply elem_of_all_terms_1, elem_of_app. by left.
  - intros cs S HS Hcs X.
    assert (S ⊆ U) as HSU.
    { apply elem_of_all_terms_1, elem_of_app. by right. }
    destruct (merge_set_cases cs S)
      as [->|[(_ & _ & ->)|(i & Y & _ & Hi & _ & _ & ->)]]; [by auto| |].
    + rewrite elem_of_app, list_elem_of_singleton. intros [?| ->]; auto.
    + intros HX. apply list_elem_of_lookup in HX as [k Hk].
      destruct (decide (i = k)) as [->|Hne].
      * rewrite list_lookup_insert_eq in Hk by (by eapply lookup_lt_Some).
        simplify_eq. apply union_least; [|done].
        apply Hcs. by eapply list_elem_of_lookup_2.
      * rewrite list_lookup_insert_ne in Hk by done.
        apply Hcs. by eapply list_elem_of_lookup_2.
Qed.

Lemma all_terms_stripped sinonimos siglas_json siglas_csv t :
  t ∈ all_terms sinonimos siglas_json siglas_csv → stripped t ∧ t ≠ "".
Proof.
  unfold all_terms. rewrite elem_of_union_list. intros (X & HX & Ht).
  unfold canonical_sets, mergeable_sets in HX.
  rewrite !elem_of_app, !list_elem_of_fmap in HX.
  destruct HX as [(? & -> & _)|[(? & -> & _)|(? & -> & _)]];
    by eapply normalized_set_stripped.
Qed.

(** The normalized terms of the input are the non-empty stripped forms of
    its raw terms. *)
Lemma elem_of_all_terms sinonimos siglas_json siglas_csv t :
  t ∈ all_terms sinonimos siglas_json siglas_csv ↔
  t ≠ "" ∧ ∃ raw, raw ∈ raw_terms sinonimos siglas_json siglas_csv
                  ∧ t = normalize_term raw.
Proof.
  unfold all_terms, raw_terms, canonical_sets, mergeable_sets, normalize_term.
  rewrite elem_of_union_list. split.
  - intros (X & HX & Ht).
    rewrite !elem_of_app, !list_elem_of_fmap in HX.
    destruct HX as [(g & -> & Hg)|[(g & -> & Hg)|(g & -> & Hg)]];
      apply elem_of_normalized_set in Ht as (Hne & u & Hu & ->);
      (split; [done|]); exists u; (split; [|done]);
      rewrite !elem_of_app, !list_elem_of_join.
    + left. eexists. split; [done|]. apply list_elem_of_fmap. by exists g.
    + right; left. by exists g.
    + right; right. eexists. split; [done|]. apply list_elem_of_fmap.
      by exists g.
  - intros (Hne & raw & Hraw & ->).
    rewrite !elem_of_app, !list_elem_of_join in Hraw.
    destruct Hraw as [(l & Hraw & Hl)|[(l & Hraw & Hl)|(l & Hraw & Hl)]].
    + apply list_elem_of_fmap in Hl as (g & -> & Hg).
      exists (normalized_set (g.1 :: g.2)). split.
      * apply elem_of_app. left. apply list_elem_of_fmap. by exists g.
      * apply elem_of_normalized_set. split; [done|]. by exists raw.
    + exists (normalized_set l). split.
      * apply elem_of_app. right. apply elem_of_app. left.
        apply list_elem_of_fmap. by exists l.
      * apply elem_of_normalized_set. split; [done|]. by exists raw.
    + apply list_elem_of_fmap in Hl as (g & -> & Hg).
      exists (normalized_set [g.1; g.2]). split.
      * apply elem_of_app. right. apply elem_of_app. right.
        apply list_elem_of_fmap. by exists g.
      * apply elem_of_normalized_set. split; [done|]. by exists raw.
Qed.

(** A set taken in by the merging loops sits inside one concept
    afterwards. *)
Lemma merge_set_contains concepts normalized :
  normalized ≠ ∅ →
  ∃ i Y, merge_set concepts normalized !! i = Some Y ∧ normalized ⊆ Y.
Proof.
  intros Hne. unfold merge_set. rewrite decide_False by done.
  destruct (merge_scan_cases normalized concepts)
    as [[-> _]|(i & X & Hi & _ & _ & ->)].
  - exists (length concepts), normalized. split; [|done].
    by rewrite lookup_app_r, Nat.sub_diag by lia.
  - exists i, (X ∪ normalized). split; [|set_solver].
    apply list_lookup_insert_eq. by eapply lookup_lt_Some.
Qed.

Lemma foldl_merge_set_grows sets concepts i X :
  concepts !! i = Some X →
  ∃ Y, foldl merge_set concepts sets !! i = Some Y ∧ X ⊆ Y.
Proof.
  apply foldl_grows. intros cs S j Z. apply merge_set_grows.
Qed.

Lemma foldl_merge_set_contains sets concepts normalized :
  normalized ∈ sets → normalized ≠ ∅ →
  ∃ Y, Y ∈ foldl merge_set concepts sets ∧ normalized ⊆ Y.
Proof.
  intros Hin Hne. apply list_elem_of_split in Hin as (l1 & l2 & ->).
  rewrite foldl_app. simpl.
  destruct (merge_set_contains (foldl merge_set concepts l1) normalized Hne)
    as (i & Y & Hi & HY).
  destruct (foldl_merge_set_grows l2 _ i Y Hi) as (Z & HZ & HYZ).
  exists Z. split; [by eapply list_elem_of_lookup_2|set_solver].
Qed.

Lemma cluster_contains_group sinonimos siglas_json siglas_csv normalized :
  normalized ∈ canonical_sets siglas_json
               ++ mergeable_sets sinonimos siglas_csv →
  normalized ≠ ∅ →
  ∃ concept, concept ∈ cluster sinonimos siglas_json siglas_csv
             ∧ normalized ⊆ concept.
Proof.
  rewrite cluster_sets, elem_of_app. intros [Hin|Hin] Hne.
  - assert (normalized ∈ filter (λ X, X ≠ ∅) (canonical_sets siglas_json))
      as [i Hi]%list_elem_of_lookup by (by apply list_elem_of_filter).
    destruct (foldl_merge_set_grows (mergeable_sets sinonimos siglas_csv)
                _ i normalized Hi) as (Y & HY & Hsub).
    exists Y. split; [by eapply list_elem_of_lookup_2|done].
  - by apply foldl_merge_set_contains.
Qed.

(** ** The member lists *)

Section TermsList.
Context `{SetOrder}.

Lemma elem_of_terms_list m term_set :
  m ∈ terms_list term_set ↔ ∃ t, t ∈ term_set ∧ m = Py.sub_suffix t.
Proof.
  unfold terms_list, cleaned_terms.
  rewrite sorted_by_perm, set_iter_perm, elem_of_elements, elem_of_map.
  split; intros (t & ? & ?); exists t; done.
Qed.

Lemma terms_list_NoDup term_set : NoDup (terms_list term_set).
Proof.
  unfold terms_list. rewrite sorted_by_perm, set_iter_perm.
  apply NoDup_elements.
Qed.

Lemma terms_list_sorted term_set :
  StronglySorted (key_le Py.lower) (terms_list term_set).
Proof. apply sorted_by_sorted. Qed.
End TermsList.

(** Where no two members agree up to case, every iteration order gives the
    same list. *)
Lemma terms_list_indep (O1 O2 : SetOrder) term_set :
  NoDup (Py.lower <$> elements (cleaned_terms term_set)) →
  @terms_list O1 term_set = @terms_list O2 term_set.
Proof.
  intros Hnd. unfold terms_list. apply sorted_by_unique.
  - by rewrite !set_iter_perm.
  - by rewrite set_iter_perm.
Qed.

Lemma concept_entries_indep (O1 O2 : SetOrder) idx concepts :
  Forall (λ X, NoDup (Py.lower <$> elements (cleaned_terms X))) concepts →
  @concept_entries O1 idx concepts = @concept_entries O2 idx concepts.
Proof.
  intros Hall. revert idx. induction Hall as [|X r HX Hr IH]; intros idx;
    simpl; [done|].
  by rewrite IH, (terms_list_indep O1 O2).
Qed.

Lemma build_concept_map_indep (O1 O2 : SetOrder) sinonimos siglas_json
    siglas_csv :
  Forall (λ X, NoDup (Py.lower <$> elements (cleaned_terms X)))
    (cluster sinonimos siglas_json siglas_csv) →
  @build_concept_map O1 sinonimos siglas_json siglas_csv
  = @build_concept_map O2 sinonimos siglas_json siglas_csv.
Proof.
  intros Hall. rewrite !build_concept_map_entries.
  by apply concept_entries_indep.
Qed.

Lemma grows_Forall2 (l k : list (gset string)) :
  (∀ i X, l !! i = Some X → ∃ Y, k !! i = Some Y ∧ X ⊆ Y) →
  Forall2 (⊆) l (take (length l) k).
Proof.
  intros Hgrow. apply Forall2_same_length_lookup_2.
  - rewrite length_take. destruct l as [|X l] using rev_ind; [done|].
    clear IHl. rewrite length_app. simpl.
    destruct (Hgrow (length l) X) as (Y & HY%lookup_lt_Some & _).
    { by rewrite lookup_app_r, Nat.sub_diag by lia. }
    lia.
  - intros i X Y HX HY. destruct (Hgrow i X HX) as (Y' & HY' & Hsub).
    rewrite lookup_take_lt in HY by (by eapply lookup_lt_Some).
    by simplify_eq.
Qed.

(** * The clustering engine *)

(** Closes a decidable goal on concrete data by running its decision. *)
Ltac by_evaluation :=
  lazymatch goal with
  | |- ?P => apply (bool_decide_unpack P); vm_compute; exact I
  end.

Lemma first_match_run_foldl active sets final :
  first_match_run active sets final → final = foldl merge_set active sets.
Proof.
  induction 1 as [active|active sets final _ IH
                  |active S sets final i X Hne Hi HX Hbefore _ IH
                  |active S sets final Hne Hall _ IH]; simpl.
  - done.
  - unfold merge_set at 2. by rewrite decide_True.
  - unfold merge_set at 2. rewrite decide_False by done.
    by rewrite (merge_scan_first _ _ i X).
  - unfold merge_set at 2. rewrite decide_False by done.
    by rewrite merge_scan_none.
Qed.

Lemma foldl_first_match_run active sets :
  first_match_run active sets (foldl merge_set active sets).
Proof.
  revert active. induction sets as [|S sets IH]; intros active; simpl.
  - constructor.
  - unfold merge_set at 2. destruct (decide (S = ∅)) as [->|Hne].
    + by apply run_skip.
    + destruct (merge_scan_cases S active)
        as [[E Hall]|(i & X & Hi & HX & Hbefore & E)]; rewrite E.
      * by apply run_append.
      * by apply (run_merge _ _ _ _ i X).
Qed.

(** C3, as stated, fails for a group that normalizes to nothing: no concept
    shares a term with it, and yet it is not appended. *)
Lemma empty_group_not_appended :
  ¬ (∀ sinonimos siglas_json group,
       (∀ existing, existing ∈ cluster sinonimos siglas_json [] →
                    normalized_set group ∩ existing = ∅) →
       cluster (sinonimos ++ [group]) siglas_json []
       = cluster sinonimos siglas_json [] ++ [normalized_set group]).
Proof.
  intros Hclaim. specialize (Hclaim [] [] [" "]).
  assert (cluster ([] ++ [[" "]]) [] [] = []) as Hrun by (by vm_compute).
  rewrite Hclaim in Hrun; [|by intros ? ?%elem_of_nil].
  by apply app_nil in Hrun as [_ ?].
Qed.

(** C3, as the code has it.  First match wins.  The list of concepts the
    engine ends with is the one result of the run that takes the normalized
    sets of the mergeable groups, sinónimos first and CSV rows after them, one
    at a time from the canonical concepts on: an empty set is passed over; a
    non-empty set is united with the first concept, in creation order, that
    shares a term with it, and every other concept stays as it was, also one
    that shares a term too; if no concept shares a term, the set is appended
    as a new concept.  Each turn of either loop does this.  With the canonical
    groups X/foo and Y/bar, the mergeable group foo, bar, from either source,
    joins the concept of X and leaves the concept of Y alone. *)
Theorem first_match_wins `{SetOrder} :
  (∀ sinonimos siglas_json siglas_csv final,
     first_match_run (foldl canonical_step [] siglas_json)
       (mergeable_sets sinonimos siglas_csv) final
     ↔ final = cluster sinonimos siglas_json siglas_csv)
  ∧ (∀ concepts synonym_list,
       let normalized := normalized_set synonym_list in
       normalized ≠ ∅ →
       (∀ i existing,
          concepts !! i = Some existing →
          normalized ∩ existing ≠ ∅ →
          (∀ j other, j < i → concepts !! j = Some other →
                      normalized ∩ other = ∅) →
          merge_step concepts synonym_list
          = <[i := existing ∪ normalized]> concepts)
       ∧ ((∀ existing, existing ∈ concepts → normalized ∩ existing = ∅) →
          merge_step concepts synonym_list = concepts ++ [normalized]))
  ∧ (∀ concepts sigla expansion,
       let normalized := normalized_set [sigla; expansion] in
       normalized ≠ ∅ →
       (∀ i existing,
          concepts !! i = Some existing →
          normalized ∩ existing ≠ ∅ →
          (∀ j other, j < i → concepts !! j = Some other →
                      normalized ∩ other = ∅) →
          csv_step concepts (sigla, expansion)
          = <[i := existing ∪ normalized]> concepts)
       ∧ ((∀ existing, existing ∈ concepts → normalized ∩ existing = ∅) →
          csv_step concepts (sigla, expansion) = concepts ++ [normalized]))
  ∧ build_concept_map [["foo"; "bar"]] [("X", ["foo"]); ("Y", ["bar"])] []
    = [("C0001", ["bar"; "foo"; "X"]); ("C0002", ["bar"; "Y"])]
  ∧ build_concept_map [] [("X", ["foo"]); ("Y", ["bar"])] [("foo", "bar")]
    = [("C0001", ["bar"; "foo"; "X"]); ("C0002", ["bar"; "Y"])].
Proof.
  assert (∀ concepts normalized,
            normalized ≠ ∅ →
            (∀ i existing,
               concepts !! i = Some existing →
               normalized ∩ existing ≠ ∅ →
               (∀ j other, j < i → concepts !! j = Some other →
                           normalized ∩ other = ∅) →
               merge_set concepts normalized
               = <[i := existing ∪ normalized]> concepts)
            ∧ ((∀ existing, existing ∈ concepts →
                            normalized ∩ existing = ∅) →
               merge_set concepts normalized = concepts ++ [normalized]))
    as Hturn.
  { intros concepts normalized Hne. unfold merge_set.
    rewrite decide_False by done. split.
    - intros i existing Hi Hmeet Hbefore.
      by rewrite (merge_scan_first _ _ i existing).
    - intros Hall. by rewrite merge_scan_none. }
  split_and!.
  - intros sinonimos siglas_json siglas_csv final.
    rewrite cluster_sets, (canonical_phase siglas_json []). simpl.
    fold (canonical_sets siglas_json). split.
    + apply first_match_run_foldl.
    + intros ->. apply foldl_first_match_run.
  - intros concepts synonym_list normalized. apply Hturn.
  - intros concepts sigla expansion normalized. apply Hturn.
  - rewrite (build_concept_map_indep _ elements_order); [by vm_compute|].
    by_evaluation.
  - rewrite (build_concept_map_indep _ elements_order); [by vm_compute|].
    by_evaluation.
Qed.

Lemma first_match_wins_witness :
  csv_step [{["X"; "foo"]}; {["Y"; "bar"]}] ("foo", "bar")
  = <[0 := {["X"; "foo"]} ∪ normalized_set ["foo"; "bar"]]>
      [{["X"; "foo"]}; {["Y"; "bar"]}].
Proof.
  refine (proj1 (proj1 (proj2 (proj2 (@first_match_wins elements_order)))
                   [{["X"; "foo"]}; {["Y"; "bar"]}] "foo" "bar" _)
            0 {["X"; "foo"]} _ _ _).
  - by_evaluation.
  - reflexivity.
  - by_evaluation.
  - intros j other Hj. lia.
Defined.

(** C2. Canonical groups are never merged.  PASO 1 turns every canonical
    group with a non-empty normalized set into a concept of its own, in the
    order of the source, whatever terms it shares with the others; the later
    steps keep each of these concepts in its place and only add terms to it.
    The two entries of AM keep two concepts that both hold AM, and the index
    lists AM under both identifiers, as ambiguous. *)
Theorem canonical_groups_never_merged `{SetOrder} :
  (∀ sinonimos siglas_json siglas_csv,
     let canonical := filter (λ X, X ≠ ∅) (canonical_sets siglas_json) in
     foldl canonical_step [] siglas_json = canonical
     ∧ Forall2 (⊆) canonical
         (take (length canonical) (cluster sinonimos siglas_json siglas_csv)))
  ∧ (canonical_step (canonical_step [] ("AM", ["Agujero macular"]))
       ("AM", ["Astigmatismo mixto"])
     = [{["AM"; "Agujero macular"]}; {["AM"; "Astigmatismo mixto"]}])
  ∧ (let concept_map :=
       build_concept_map []
         [("AM", ["AM"; "Agujero macular"]);
          ("AM-1", ["AM"; "Astigmatismo mixto"])] [] in
     concept_map = [("C0001", ["Agujero macular"; "AM"]);
                    ("C0002", ["AM"; "Astigmatismo mixto"])]
     ∧ dict_get "AM" (build_inverted_index concept_map)
       = Some {| concept_ids := ["C0001"; "C0002"]; is_ambiguous := true |}).
Proof.
  split_and!.
  - intros sinonimos siglas_json siglas_csv canonical. split.
    { by rewrite canonical_phase. }
    rewrite cluster_sets. fold canonical. apply grows_Forall2.
    intros i X Hi. apply foldl_grows; [|done].
    intros cs S j Z. apply merge_set_grows.
  - by vm_compute.
  - cbv zeta. rewrite (build_concept_map_indep _ elements_order);
      [by vm_compute|by_evaluation].
Qed.

(** C9, the part that does not hold.  A term whose suffix is cut off after it
    was stripped can end in white space; and terms that differ in case only
    come in the order in which the set happens to yield them. *)
Lemma concept_map_members_not_clean :
  ¬ (∀ (O : SetOrder) sinonimos siglas_json siglas_csv cid members,
       (cid, members) ∈ build_concept_map sinonimos siglas_json siglas_csv →
       Forall stripped members)
  ∧ ¬ (∀ (O : SetOrder) sinonimos siglas_json siglas_csv cid members,
         (cid, members) ∈ build_concept_map sinonimos siglas_json siglas_csv →
         StronglySorted ci_natural_le members).
Proof.
  split.
  - intros Hclaim.
    specialize (Hclaim elements_order [] [("a -1", [])] [] "C0001" ["a "]).
    assert (Forall stripped ["a "]) as Hs by (apply Hclaim; vm_compute; left).
    apply Forall_cons in Hs as [Hs _]. vm_compute in Hs. discriminate.
  - intros Hclaim.
    specialize (Hclaim elements_order [] [("am", ["AM"])] [] "C0001"
                  ["am"; "AM"]).
    assert (StronglySorted ci_natural_le ["am"; "AM"]) as Hs
      by (apply Hclaim; vm_compute; left).
    apply StronglySorted_cons in Hs as [Hs _].
    apply Forall_cons in Hs as [[[_ Hs]|[_ Hs]] _].
    + apply Hs. by vm_compute.
    + by vm_compute in Hs.
Qed.

(** The same two terms under two iteration orders of the set. *)
Example tie_order_follows_set_order :
  @build_concept_map elements_order [] [("am", ["AM"])] []
  = [("C0001", ["am"; "AM"])]
  ∧ @build_concept_map reverse_order [] [("am", ["AM"])] []
    = [("C0001", ["AM"; "am"])].
Proof. split; by vm_compute. Qed.

(** C9, as the code has it.  The keys are C0001, C0002, ... in creation
    order, one for each concept, the number written with four digits at least;
    every member list is in non-decreasing order of the lower-cased terms and
    holds no term twice; each member comes from the input: it is a normalized
    term of the input, stripped and non-empty, with a final -digits suffix
    removed, and the normalized terms of the input are the non-empty stripped
    forms of the raw terms of the three sources.  The members of the entry
    at a position are exactly the terms of the concept at that position with
    their suffixes removed, so that every normalized input term is, suffix
    removed, a member of some entry. *)
Theorem concept_map_well_formed `{SetOrder} sinonimos siglas_json siglas_csv :
  let concepts := cluster sinonimos siglas_json siglas_csv in
  let concept_map := build_concept_map sinonimos siglas_json siglas_csv in
  let input_terms := all_terms sinonimos siglas_json siglas_csv in
  concept_map.*1 = concept_id <$> seq 1 (length concepts)
  ∧ Forall (λ item,
              StronglySorted (key_le Py.lower) item.2
              ∧ NoDup item.2
              ∧ Forall (λ m, ∃ t, t ∈ input_terms
                                  ∧ m = Py.sub_suffix t ∧ stripped t ∧ t ≠ "")
                  item.2)
      concept_map
  ∧ Forall2 (λ item term_set,
               ∀ m, m ∈ item.2 ↔ ∃ t, t ∈ term_set ∧ m = Py.sub_suffix t)
      concept_map concepts
  ∧ (∀ t, t ∈ input_terms ↔
          t ≠ "" ∧ ∃ raw, raw ∈ raw_terms sinonimos siglas_json siglas_csv
                          ∧ t = normalize_term raw)
  ∧ (∀ t, t ∈ input_terms →
          ∃ cid members, (cid, members) ∈ concept_map
                         ∧ Py.sub_suffix t ∈ members)
  ∧ (∀ idx, id_number (concept_id idx) = Some idx
            ∧ 5 ≤ String.length (concept_id idx))
  ∧ concept_id 1 = "C0001" ∧ concept_id 2 = "C0002"
  ∧ concept_id 9999 = "C9999" ∧ concept_id 10000 = "C10000".
Proof.
  intros concepts concept_map input_terms. unfold concept_map, input_terms.
  rewrite build_concept_map_entries. fold concepts.
  split_and!; [apply concept_entries_keys| | | | | |by vm_compute..].
  - apply Forall_lookup. intros i [cid members].
    rewrite concept_entries_lookup.
    destruct (concepts !! i) as [X|] eqn:Hi; [|done]. intros [= <- <-].
    simpl. split_and!.
    + apply terms_list_sorted.
    + apply terms_list_NoDup.
    + apply Forall_forall. intros m (t & Ht & ->)%elem_of_terms_list.
      assert (t ∈ all_terms sinonimos siglas_json siglas_csv) as Hin.
      { eapply cluster_subseteq; [|done]. by eapply list_elem_of_lookup_2. }
      exists t. split_and!; [done..| |]; by eapply all_terms_stripped.
  - apply Forall2_same_length_lookup. split.
    + rewrite <-(length_fmap fst (concept_entries 1 concepts)).
      by rewrite concept_entries_keys, length_fmap, length_seq.
    + intros i [cid members] X. rewrite concept_entries_lookup.
      intros Hitem HX. rewrite HX in Hitem. injection Hitem as <- <-.
      intros m. apply elem_of_terms_list.
  - apply elem_of_all_terms.
  - intros t Ht.
    assert (∃ X, X ∈ concepts ∧ t ∈ X) as (X & [i Hi]%list_elem_of_lookup & HtX).
    { unfold all_terms in Ht. apply elem_of_union_list in Ht as (S & HS & Ht).
      destruct (cluster_contains_group sinonimos siglas_json siglas_csv S HS)
        as (Y & HY & Hsub); [set_solver|].
      exists Y. split; [done|set_solver]. }
    exists (concept_id (1 + i)), (terms_list X). split.
    + apply (list_elem_of_lookup_2 _ i). rewrite concept_entries_lookup.
      by rewrite Hi.
    + apply elem_of_terms_list. by exists t.
  - intros idx. split; [apply id_number_concept_id|].
    unfold concept_id. change ("C" +:+ ?s) with (String "C" s). simpl.
    pose proof (format_04d_width idx). lia.
Qed.

(** C5. Empty groups are dropped.  A raw group whose terms all normalize to
    the empty string, be it an entry of the canonical source, a list of
    sinónimos or a CSV row, leaves the Concept Map as it is without the
    group; the identifiers stay C0001 ... without a gap. *)
Theorem empty_groups_dropped `{SetOrder} :
  (∀ sinonimos siglas_json siglas_csv,
     let concept_map := build_concept_map sinonimos siglas_json siglas_csv in
     concept_map.*1 = concept_id <$> seq 1 (length concept_map))
  ∧ (∀ before group after siglas_json siglas_csv,
       Forall (λ t, normalize_term t = "") group →
       build_concept_map (before ++ group :: after) siglas_json siglas_csv
       = build_concept_map (before ++ after) siglas_json siglas_csv)
  ∧ (∀ sinonimos before sigla expansiones after siglas_csv,
       Forall (λ t, normalize_term t = "") (sigla :: expansiones) →
       build_concept_map sinonimos (before ++ (sigla, expansiones) :: after)
         siglas_csv
       = build_concept_map sinonimos (before ++ after) siglas_csv)
  ∧ (∀ sinonimos siglas_json before sigla expansion after,
       Forall (λ t, normalize_term t = "") [sigla; expansion] →
       build_concept_map sinonimos siglas_json
         (before ++ (sigla, expansion) :: after)
       = build_concept_map sinonimos siglas_json (before ++ after)).
Proof.
  split_and!.
  - intros sinonimos siglas_json siglas_csv concept_map.
    rewrite <-(length_fmap fst concept_map). unfold concept_map.
    rewrite build_concept_map_entries, concept_entries_keys.
    by rewrite length_fmap, length_seq.
  - intros before group after siglas_json siglas_csv Hg%normalized_set_empty.
    unfold build_concept_map, cluster. do 2 f_equal.
    rewrite !foldl_app. simpl.
    unfold merge_step at 2, merge_set. by rewrite Hg, decide_True.
  - intros sinonimos before sigla expansiones after siglas_csv
      Hg%normalized_set_empty.
    unfold build_concept_map, cluster. do 3 f_equal.
    rewrite !foldl_app. simpl.
    unfold canonical_step at 2. simpl. by rewrite Hg, decide_True.
  - intros sinonimos siglas_json before sigla expansion after
      Hg%normalized_set_empty.
    unfold build_concept_map, cluster. f_equal.
    rewrite !foldl_app. simpl.
    unfold csv_step at 2, merge_set. simpl. by rewrite Hg, decide_True.
Qed.

Lemma empty_groups_dropped_witness :
  @build_concept_map elements_order ([["a"; "b"]] ++ [" "; ""] :: [["c"]])
    [("X", ["foo"])] [("Y", "bar")]
  = @build_concept_map elements_order ([["a"; "b"]] ++ [["c"]])
      [("X", ["foo"])] [("Y", "bar")].
Proof.
  refine (proj1 (proj2 (@empty_groups_dropped elements_order))
            [["a"; "b"]] [" "; ""] [["c"]] [("X", ["foo"])] [("Y", "bar")] _).
  by_evaluation.
Defined.

(** ** When concepts stay disjoint *)

Lemma pairwise_disjoint_lookup sets :
  pairwise_disjoint sets ↔
  ∀ i j X Y, sets !! i = Some X → sets !! j = Some Y → i ≠ j → X ## Y.
Proof.
  induction sets as [|Z r IH]; simpl.
  - split; [by intros _ [|?] ? ? ? ?|done].
  - rewrite IH, Forall_lookup. split.
    + intros [Hhd Htl] [|i] [|j] X Y HX HY Hne; simplify_eq/=.
      * by apply (Hhd j).
      * symmetry. by apply (Hhd i).
      * apply (Htl i j); [done..|lia].
    + intros Hall. split.
      * intros j Y HY. by apply (Hall 0 (S j)).
      * intros i j X Y HX HY Hne. apply (Hall (S i) (S j)); [done..|lia].
Qed.

Lemma pairwise_disjoint_filter (P : gset string → Prop)
    `{!∀ X, Decision (P X)} sets :
  pairwise_disjoint sets → pairwise_disjoint (filter P sets).
Proof.
  induction sets as [|Z r IH]; simpl; [done|]. intros [Hhd Htl].
  rewrite filter_cons. case_decide; simpl; [|auto].
  split; [|auto]. rewrite Forall_forall in Hhd. apply Forall_forall.
  intros Y [_ HY]%list_elem_of_filter. auto.
Qed.

Lemma meets_at_most_one_lookup normalized concepts i j X Y :
  meets_at_most_one normalized concepts →
  concepts !! i = Some X → concepts !! j = Some Y →
  normalized ∩ X ≠ ∅ → normalized ∩ Y ≠ ∅ → i = j.
Proof.
  unfold meets_at_most_one. revert i j.
  induction concepts as [|Z r IH]; intros i j Hlen Hi Hj HX HY; [done|].
  rewrite filter_cons in Hlen.
  assert (∀ k W, r !! k = Some W → normalized ∩ W ≠ ∅ →
                 1 ≤ length (filter (λ X, normalized ∩ X ≠ ∅) r)) as Hpos.
  { intros k W Hk HW.
    assert (W ∈ filter (λ X, normalized ∩ X ≠ ∅) r) as Hin.
    { apply list_elem_of_filter. split; [done|].
      by eapply list_elem_of_lookup_2. }
    destruct (filter _ r); [by apply elem_of_nil in Hin|simpl; lia]. }
  destruct i as [|i], j as [|j]; simplify_eq/=; [done| | |].
  - rewrite decide_True in Hlen by done. simpl in Hlen.
    pose proof (Hpos _ _ Hj HY). lia.
  - rewrite decide_True in Hlen by done. simpl in Hlen.
    pose proof (Hpos _ _ Hi HX). lia.
  - f_equal. apply IH; [|done..]. case_decide; simpl in Hlen; lia.
Qed.

(** A turn of the merging loops keeps the concepts apart as long as the set
    taken in meets one concept at most. *)
Lemma merge_set_disjoint concepts normalized :
  pairwise_disjoint concepts →
  meets_at_most_one normalized concepts →
  pairwise_disjoint (merge_set concepts normalized).
Proof.
  intros Hdis Hone.
  destruct (merge_set_cases concepts normalized)
    as [->|[(_ & Hall & ->)|(i & X & _ & Hi & HX & _ & ->)]]; [done| |].
  - apply pairwise_disjoint_lookup. intros a b A B Ha Hb Hne.
    rewrite pairwise_disjoint_lookup in Hdis.
    assert (∀ k W, concepts !! k = Some W → W ## normalized) as Hsep.
    { intros k W Hk. pose proof (Hall W (list_elem_of_lookup_2 _ _ _ Hk)).
      set_solver. }
    apply lookup_app_Some in Ha as [Ha|[Hla Ha]];
      apply lookup_app_Some in Hb as [Hb|[Hlb Hb]].
    + by apply (Hdis a b).
    + apply list_lookup_singleton_Some in Hb as [_ <-]. by apply (Hsep a).
    + apply list_lookup_singleton_Some in Ha as [_ <-]. symmetry.
      by apply (Hsep b).
    + apply list_lookup_singleton_Some in Ha as [? _].
      apply list_lookup_singleton_Some in Hb as [? _]. lia.
  - apply pairwise_disjoint_lookup. intros a b A B Ha Hb Hne.
    rewrite pairwise_disjoint_lookup in Hdis.
    assert (∀ k W, k ≠ i → concepts !! k = Some W → W ## X ∪ normalized)
      as Hsep.
    { intros k W Hk HW. apply disjoint_union_r. split.
      - by apply (Hdis k i).
      - destruct (decide (normalized ∩ W = ∅)) as [|HW']; [set_solver|].
        destruct Hk.
        by apply (meets_at_most_one_lookup normalized concepts k i W X). }
    pose proof (lookup_lt_Some _ _ _ Hi) as Hlt.
    destruct (decide (a = i)) as [->|Hai]; destruct (decide (b = i)) as [->|Hbi].
    + done.
    + rewrite list_lookup_insert_eq in Ha by done.
      rewrite list_lookup_insert_ne in Hb by done.
      simplify_eq. symmetry. by apply (Hsep b).
    + rewrite list_lookup_insert_eq in Hb by done.
      rewrite list_lookup_insert_ne in Ha by done.
      simplify_eq. by apply (Hsep a).
    + rewrite list_lookup_insert_ne in Ha, Hb by done. by apply (Hdis a b).
Qed.

Lemma foldl_merge_set_disjoint sets concepts :
  pairwise_disjoint concepts →
  single_matches concepts sets →
  pairwise_disjoint (foldl merge_set concepts sets).
Proof.
  revert concepts. induction sets as [|S r IH]; intros concepts Hdis Hrun;
    simpl in *; [done|].
  destruct Hrun as [Hone Hrun]. apply IH; [|done].
  by apply merge_set_disjoint.
Qed.

(** C1, as stated, fails: the canonical source keeps the two meanings of AM
    apart, and both concepts list AM. *)
Lemma concepts_not_disjoint :
  ¬ (∀ (O : SetOrder) sinonimos siglas_json siglas_csv c1 l1 c2 l2 t,
       (c1, l1) ∈ build_concept_map sinonimos siglas_json siglas_csv →
       (c2, l2) ∈ build_concept_map sinonimos siglas_json siglas_csv →
       c1 ≠ c2 → t ∈ l1 → t ∉ l2).
Proof.
  intros Hclaim.
  apply (Hclaim elements_order []
           [("AM", ["AM"; "Agujero macular"]);
            ("AM-1", ["AM"; "Astigmatismo mixto"])] []
           "C0001" ["Agujero macular"; "AM"]
           "C0002" ["AM"; "Astigmatismo mixto"] "AM"); by_evaluation.
Qed.

(** C1, as the code has it.  The term lists of two different concept
    identifiers share no term when the input keeps three conditions: the
    canonical groups have pairwise disjoint normalized term sets; every
    mergeable group, when its turn comes, shares terms with one active concept
    at most; and no two different input terms become equal when their -digits
    suffix is removed. *)
Theorem disjoint_when_unambiguous `{SetOrder} sinonimos siglas_json siglas_csv :
  pairwise_disjoint (canonical_sets siglas_json) →
  single_matches (filter (λ X, X ≠ ∅) (canonical_sets siglas_json))
    (mergeable_sets sinonimos siglas_csv) →
  NoDup (Py.sub_suffix
           <$> elements (all_terms sinonimos siglas_json siglas_csv)) →
  ∀ c1 l1 c2 l2 t,
    (c1, l1) ∈ build_concept_map sinonimos siglas_json siglas_csv →
    (c2, l2) ∈ build_concept_map sinonimos siglas_json siglas_csv →
    c1 ≠ c2 → t ∈ l1 → t ∉ l2.
Proof.
  intros Hcanon Hrun Hinj c1 l1 c2 l2 t.
  rewrite build_concept_map_entries.
  intros [i1 H1]%list_elem_of_lookup [i2 H2]%list_elem_of_lookup Hne.
  rewrite concept_entries_lookup in H1, H2.
  destruct (cluster _ _ _ !! i1) as [X1|] eqn:E1; [|done].
  destruct (cluster _ _ _ !! i2) as [X2|] eqn:E2; [|done].
  simplify_eq/=.
  intros (u1 & Hu1 & ->)%elem_of_terms_list (u2 & Hu2 & E)%elem_of_terms_list.
  assert (X1 ## X2) as Hdis.
  { assert (pairwise_disjoint (cluster sinonimos siglas_json siglas_csv))
      as Hall.
    { rewrite cluster_sets. apply foldl_merge_set_disjoint; [|done].
      by apply pairwise_disjoint_filter. }
    rewrite pairwise_disjoint_lookup in Hall. apply (Hall i1 i2); [done..|].
    by intros ->. }
  assert (u1 = u2) as ->; [|set_solver].
  apply (NoDup_fmap_inj_on Py.sub_suffix
           (elements (all_terms sinonimos siglas_json siglas_csv)));
    [done| | |done].
  - apply elem_of_elements, (cluster_subseteq _ _ _ X1); [|done].
    by eapply list_elem_of_lookup_2.
  - apply elem_of_elements, (cluster_subseteq _ _ _ X2); [|done].
    by eapply list_elem_of_lookup_2.
Qed.

Lemma disjoint_when_unambiguous_witness :
  "foo" ∉ ["bar"; "Y"; "Z"].
Proof.
  refine (@disjoint_when_unambiguous elements_order
            [["foo"; "baz"]; ["new"]] [("X", ["foo"]); ("Y", ["bar"])]
            [("Z", "bar")] _ _ _
            "C0001" ["baz"; "foo"; "X"] "C0002" ["bar"; "Y"; "Z"] "foo"
            _ _ _ _); by_evaluation.
Defined.

(** * The inverted index *)

Lemma add_term_lists cid m term k c :
  lists_under (add_term cid m term) k c
  ↔ lists_under m k c ∨ (k ≠ "" ∧ k = Py.strip term ∧ c = cid).
Proof.
  unfold add_term, lists_under. cbv zeta.
  destruct (decide (Py.strip term = "")) as [E|E].
  { split; [by left|]. intros [?|(? & ? & ?)]; [done|congruence]. }
  destruct (decide (k = Py.strip term)) as [->|Hk].
  - rewrite lookup_insert_eq. split.
    + intros (ids & [= <-] & [Hc|Hc%elem_of_singleton]%elem_of_union).
      * left. destruct (m !! Py.strip term) as [X|]; [eauto|set_solver].
      * by right.
    + intros [(ids & Hm & Hc)|(_ & _ & ->)];
        (eexists; split; [done|]); [rewrite Hm|]; set_solver.
  - rewrite lookup_insert_ne by done.
    split; [by left|]. by intros [?|(_ & ? & _)].
Qed.

Lemma add_term_nonempty cid m term :
  (∀ k ids, m !! k = Some ids → ids ≠ ∅) →
  ∀ k ids, add_term cid m term !! k = Some ids → ids ≠ ∅.
Proof.
  intros Hm k ids. unfold add_term. cbv zeta. case_decide; [apply Hm|].
  destruct (decide (k = Py.strip term)) as [->|Hk].
  - rewrite lookup_insert_eq. intros [= <-]. set_solver.
  - rewrite lookup_insert_ne by done. apply Hm.
Qed.

Lemma add_terms_lists cid terms m k c :
  lists_under (foldl (add_term cid) m terms) k c
  ↔ lists_under m k c
    ∨ (k ≠ "" ∧ c = cid ∧ ∃ t, t ∈ terms ∧ Py.strip t = k).
Proof.
  revert m. induction terms as [|t r IH]; intros m; simpl.
  - split; [by left|]. intros [?|(_ & _ & t & ?%elem_of_nil & _)]; done.
  - rewrite IH, add_term_lists. split.
    + intros [[?|(? & -> & ->)]|(? & -> & t' & ? & ?)]; [by left|right..].
      * split_and!; [done..|]. exists t. split; [left|done].
      * split_and!; [done..|]. exists t'. split; [by right|done].
    + intros [?|(? & -> & t' & [->|?]%elem_of_cons & ?)].
      * by left; left.
      * left; right. by split_and!.
      * right. split_and!; [done..|]. by exists t'.
Qed.

Lemma term_to_concepts_lists synonyms k c :
  lists_under (term_to_concepts synonyms) k c
  ↔ k ≠ "" ∧ ∃ terms t, (c, terms) ∈ synonyms ∧ t ∈ terms ∧ Py.strip t = k.
Proof.
  unfold term_to_concepts.
  assert (∀ m, lists_under
                 (foldl (λ m item, foldl (add_term item.1) m item.2) m synonyms)
                 k c
               ↔ lists_under m k c
                 ∨ (k ≠ "" ∧ ∃ terms t,
                      (c, terms) ∈ synonyms ∧ t ∈ terms ∧ Py.strip t = k))
    as Hgen.
  { induction synonyms as [|[cid terms] r IH]; intros m; simpl.
    - split; [by left|].
      intros [?|(_ & ? & ? & ?%elem_of_nil & _)]; done.
    - rewrite IH, add_terms_lists. split.
      + intros [[?|(? & -> & t & ? & ?)]|(? & terms' & t & ? & ? & ?)].
        * by left.
        * right. split; [done|]. exists terms, t. split_and!; [left|done..].
        * right. split; [done|]. exists terms', t. split_and!; [by right|done..].
      + intros [?|(? & terms' & t & [[= -> ->]|?]%elem_of_cons & ? & ?)].
        * by left; left.
        * left; right. split_and!; [done..|]. by exists t.
        * right. split; [done|]. by exists terms', t. }
  rewrite Hgen. split; [|by right].
  intros [(ids & Hm & _)|?]; [|done]. by rewrite lookup_empty in Hm.
Qed.

Lemma term_to_concepts_nonempty synonyms k ids :
  term_to_concepts synonyms !! k = Some ids → ids ≠ ∅.
Proof.
  unfold term_to_concepts. revert k ids.
  assert (∀ m, (∀ k ids, m !! k = Some ids → ids ≠ ∅) →
               ∀ k ids,
                 foldl (λ m item, foldl (add_term item.1) m item.2) m synonyms
                   !! k = Some ids → ids ≠ ∅) as Hgen.
  { induction synonyms as [|[cid terms] r IH]; intros m Hm; simpl; [done|].
    apply IH. clear IH. revert m Hm.
    induction terms as [|t ts IHt]; intros m Hm; simpl; [done|].
    apply IHt. by apply add_term_nonempty. }
  apply Hgen. intros k ids. by rewrite lookup_empty.
Qed.

Lemma foldl_index_step items inverted_index :
  NoDup (inverted_index.*1 ++ items.*1) →
  foldl index_step inverted_index items
  = inverted_index ++ ((λ item, (item.1, index_entry item.2)) <$> items).
Proof.
  revert inverted_index.
  induction items as [|[term ids] r IH]; intros idx Hnd; csimpl.
  - by rewrite app_nil_r.
  - unfold index_step at 2. simpl. fold (index_entry ids).
    apply NoDup_app in Hnd as (Hidx & Hsep & [Hterm Hr]%NoDup_cons).
    rewrite dict_set_fresh by (intros Hin; apply (Hsep _ Hin); left).
    rewrite IH, <-app_assoc; [done|].
    rewrite fmap_app. csimpl. apply NoDup_app. split_and!; [|..|done].
    + apply NoDup_app. split_and!; [done| |apply NoDup_singleton].
      intros k Hk ->%list_elem_of_singleton. apply (Hsep _ Hk). left.
    + intros k [Hk| ->%list_elem_of_singleton]%elem_of_app Hin; [|done].
      apply (Hsep _ Hk). by right.
Qed.

(** The index as the list of its entries: the assignments of the last loop
    never meet a key twice. *)
Lemma build_inverted_index_entries synonyms :
  build_inverted_index synonyms
  = (λ item, (item.1, index_entry item.2))
      <$> Py.sorted_by fst (map_to_list (term_to_concepts synonyms)).
Proof.
  unfold build_inverted_index. rewrite foldl_index_step; [done|].
  simpl. rewrite sorted_by_perm. apply NoDup_fst_map_to_list.
Qed.

Lemma build_inverted_index_keys synonyms :
  (build_inverted_index synonyms).*1
  = (Py.sorted_by fst (map_to_list (term_to_concepts synonyms))).*1.
Proof.
  rewrite build_inverted_index_entries, <-list_fmap_compose.
  by apply list_fmap_ext.
Qed.

(** Looking a term up in the index is looking it up in [term_to_concepts]. *)
Lemma index_lookup synonyms k :
  dict_get k (build_inverted_index synonyms)
  = index_entry <$> term_to_concepts synonyms !! k.
Proof.
  destruct (term_to_concepts synonyms !! k) as [ids|] eqn:E; simpl.
  - apply dict_get_elem.
    + rewrite build_inverted_index_keys, sorted_by_perm.
      apply NoDup_fst_map_to_list.
    + rewrite build_inverted_index_entries.
      apply (list_elem_of_fmap_2' _ _ (k, ids)); [|done].
      rewrite sorted_by_perm. by apply elem_of_map_to_list.
  - apply dict_get_None. rewrite build_inverted_index_keys, sorted_by_perm.
    intros ([k' ids] & -> & Hin%elem_of_map_to_list)%list_elem_of_fmap.
    simpl in *. congruence.
Qed.

Lemma elem_of_index_entry c ids : c ∈ concept_ids (index_entry ids) ↔ c ∈ ids.
Proof.
  unfold index_entry, Py.sorted. simpl.
  by rewrite sorted_by_perm, elem_of_elements.
Qed.

(** C4, as stated, fails: the builder looks at the stripped form of a member
    term, so a member that carries white space, such as the one the Concept
    Map gets from the canonical key [a -1], has no entry of its own. *)
Lemma index_misses_padded_member :
  ¬ (∀ synonyms c terms t,
       (c, terms) ∈ synonyms → t ∈ terms →
       ∃ e, dict_get t (build_inverted_index synonyms) = Some e
            ∧ c ∈ concept_ids e).
Proof.
  intros Hclaim.
  destruct (Hclaim (@build_concept_map elements_order [] [("a -1", [])] [])
              "C0001" ["a "] "a ") as (e & He & _); [by_evaluation..|].
  vm_compute in He. discriminate.
Qed.

(** C4, as the code has it.  For every concept [c] and member [t] of the
    Concept Map whose stripped form is not empty, the index entry for the
    stripped form of [t] lists [c]; a concept listed in the entry for a key
    has a member whose stripped form is that key; the identifiers of an entry
    come sorted and without repetition, and the entry is flagged ambiguous
    exactly when it lists more than one. *)
Theorem index_round_trip synonyms :
  let inverted_index := build_inverted_index synonyms in
  (∀ c terms t,
     (c, terms) ∈ synonyms → t ∈ terms → Py.strip t ≠ "" →
     ∃ e, dict_get (Py.strip t) inverted_index = Some e ∧ c ∈ concept_ids e)
  ∧ (∀ k e c,
       dict_get k inverted_index = Some e → c ∈ concept_ids e →
       ∃ terms t, (c, terms) ∈ synonyms ∧ t ∈ terms ∧ Py.strip t = k)
  ∧ (∀ k e,
       dict_get k inverted_index = Some e →
       StronglySorted String.le (concept_ids e)
       ∧ NoDup (concept_ids e)
       ∧ is_ambiguous e = bool_decide (1 < length (concept_ids e))).
Proof.
  intros inverted_index. unfold inverted_index. split_and!.
  - intros c terms t Hc Ht Hne.
    assert (lists_under (term_to_concepts synonyms) (Py.strip t) c)
      as (ids & Hids & Hin).
    { apply term_to_concepts_lists. split; [done|]. by exists terms, t. }
    exists (index_entry ids). rewrite index_lookup, Hids.
    split; [done|]. by apply elem_of_index_entry.
  - intros k e c. rewrite index_lookup.
    destruct (term_to_concepts synonyms !! k) as [ids|] eqn:Hids; [|done].
    intros [= <-] Hc%elem_of_index_entry.
    assert (lists_under (term_to_concepts synonyms) k c) as Hl
      by (by exists ids).
    by apply term_to_concepts_lists in Hl as [_ ?].
  - intros k e. rewrite index_lookup.
    destruct (term_to_concepts synonyms !! k) as [ids|]; [|done].
    intros [= <-]. unfold index_entry, Py.sorted. simpl. split_and!; [| |done].
    + apply (sorted_by_sorted id).
    + rewrite sorted_by_perm. apply NoDup_elements.
Qed.

Lemma index_round_trip_witness :
  ∃ e, dict_get (Py.strip "a ")
         (build_inverted_index [("C0001", ["a "; "b"]); ("C0002", ["a"])])
       = Some e
       ∧ "C0001" ∈ concept_ids e.
Proof.
  refine (proj1 (index_round_trip [("C0001", ["a "; "b"]); ("C0002", ["a"])])
            "C0001" ["a "; "b"] "a " _ _ _); by_evaluation.
Defined.

(** C10. The index builder normalizes on its own.  Every key of the index
    is a non-empty string that [strip] leaves unchanged, whatever white space
    the members of the Concept Map carry; the keys are exactly the non-empty
    stripped forms of the members, so a padded member falls under the entry
    of its stripped form and a member that is empty once stripped is left
    out. *)
Theorem index_keys_normalized synonyms :
  let keys := (build_inverted_index synonyms).*1 in
  (∀ k, k ∈ keys → k ≠ "" ∧ Py.strip k = k)
  ∧ (∀ k, k ∈ keys ↔
          k ≠ "" ∧ ∃ c terms t,
                     (c, terms) ∈ synonyms ∧ t ∈ terms ∧ Py.strip t = k)
  ∧ NoDup keys
  ∧ build_inverted_index [("C0001", [" a "; ""; "a"; "  "]); ("C0002", ["a "])]
    = [("a", {| concept_ids := ["C0001"; "C0002"]; is_ambiguous := true |})].
Proof.
  intros keys.
  assert (∀ k, k ∈ keys ↔
               k ≠ "" ∧ ∃ c terms t,
                          (c, terms) ∈ synonyms ∧ t ∈ terms ∧ Py.strip t = k)
    as Hkeys.
  { intros k. unfold keys.
    rewrite build_inverted_index_keys, sorted_by_perm. split.
    - intros ([k' ids] & -> & Hin%elem_of_map_to_list)%list_elem_of_fmap.
      simpl in *.
      destruct (set_choose_L ids) as [c Hc];
        [by eapply term_to_concepts_nonempty|].
      assert (lists_under (term_to_concepts synonyms) k' c) as Hl
        by (by exists ids).
      apply term_to_concepts_lists in Hl as [? (terms & t & ?)].
      split; [done|]. by exists c, terms, t.
    - intros (Hne & c & terms & t & Hc & Ht & Hk).
      assert (lists_under (term_to_concepts synonyms) k c)
        as (ids & Hids & _).
      { apply term_to_concepts_lists. split; [done|]. by exists terms, t. }
      apply (list_elem_of_fmap_2' _ _ (k, ids)); [|done].
      by apply elem_of_map_to_list. }
  split_and!; [|done| |by vm_compute].
  - intros k (Hne & c & terms & t & _ & _ & <-)%Hkeys.
    split; [done|]. apply strip_idemp.
  - unfold keys. rewrite build_inverted_index_keys, sorted_by_perm.
    apply NoDup_fst_map_to_list.
Qed.

Lemma index_keys_normalized_witness :
  "a" ≠ "" ∧ Py.strip "a" = "a".
Proof.
  refine (proj1 (index_keys_normalized [("C0001", [" a "; ""])]) "a" _).
  by_evaluation.
Defined.

(** * Query expansion *)

Lemma elem_of_collect_synonyms synonyms ids t :
  t ∈ collect_synonyms synonyms ids
  ↔ ∃ cid terms,
      cid ∈ ids ∧ dict_get cid synonyms = Some terms ∧ t ∈ terms.
Proof.
  unfold collect_synonyms.
  assert (∀ acc : gset string,
            t ∈ foldl (λ all_synonyms concept_id,
                         match dict_get concept_id synonyms with
                         | Some terms => all_synonyms ∪ list_to_set terms
                         | None => all_synonyms
                         end) acc ids
            ↔ t ∈ acc
              ∨ ∃ cid terms,
                  cid ∈ ids ∧ dict_get cid synonyms = Some terms ∧ t ∈ terms)
    as Hgen.
  { induction ids as [|cid r IH]; intros acc; simpl.
    - split; [by left|]. intros [?|(? & ? & ?%elem_of_nil & _)]; done.
    - rewrite IH. split.
      + intros [Hacc|(cid' & terms & ? & ? & ?)].
        * destruct (dict_get cid synonyms) as [terms|] eqn:E; [|by left].
          apply elem_of_union in Hacc as [?|?%elem_of_list_to_set];
            [by left|].
          right. exists cid, terms. split_and!; [left|done..].
        * right. exists cid', terms. split_and!; [by right|done..].
      + intros [?|(cid' & terms & [->|?]%elem_of_cons & Hget & ?)].
        * left. destruct (dict_get cid synonyms); [|done].
          apply elem_of_union. by left.
        * left. rewrite Hget. apply elem_of_union. right.
          by apply elem_of_list_to_set.
        * right. by exists cid', terms. }
  rewrite Hgen. split; [|by right]. by intros [?%not_elem_of_empty|?].
Qed.

Lemma collect_synonyms_perm synonyms ids ids' :
  ids ≡ₚ ids' → collect_synonyms synonyms ids = collect_synonyms synonyms ids'.
Proof.
  intros Hp. apply set_eq. intros t. rewrite !elem_of_collect_synonyms.
  by setoid_rewrite Hp.
Qed.

(** C6. A term the index does not hold is expanded to itself: the result
    says not found, its expanded terms are the term alone, and its query is
    the term between double quotes. *)
Theorem expand_not_found synonyms inverted_index term :
  dict_get term inverted_index = None →
  let r := expand_term synonyms inverted_index term in
  original r = term
  ∧ found r = false
  ∧ res_is_ambiguous r = false
  ∧ res_concept_ids r = []
  ∧ expanded_terms r = {[term]}
  ∧ query r = String "034" (term +:+ String "034" "").
Proof. intros Hget r. unfold r, expand_term. by rewrite Hget. Qed.

Lemma expand_not_found_witness :
  let r := expand_term [("C0001", ["AM"; "Agujero macular"])]
             (build_inverted_index [("C0001", ["AM"; "Agujero macular"])])
             "XYZ123" in
  original r = "XYZ123"
  ∧ found r = false
  ∧ res_is_ambiguous r = false
  ∧ res_concept_ids r = []
  ∧ expanded_terms r = {["XYZ123"]}
  ∧ query r = String "034" ("XYZ123" +:+ String "034" "").
Proof.
  refine (expand_not_found [("C0001", ["AM"; "Agujero macular"])]
            (build_inverted_index [("C0001", ["AM"; "Agujero macular"])])
            "XYZ123" _).
  vm_compute. reflexivity.
Defined.

(** C7, as stated, fails: the code quotes a term when it holds a blank, and
    a term whose only white space is a tab goes into the query bare. *)
Lemma tab_term_not_quoted :
  ¬ (∀ synonyms inverted_index term index_data,
       dict_get term inverted_index = Some index_data →
       collect_synonyms synonyms (concept_ids index_data) ≠ ∅ →
       query (expand_term synonyms inverted_index term)
       = "(" +:+ Py.join " OR "
                   (quote_whitespace
                      <$> Py.sorted
                            (elements
                               (collect_synonyms synonyms
                                  (concept_ids index_data))))
             +:+ ")").
Proof.
  intros Hclaim.
  pose (term := String "a" (String "009" "b")).
  pose (synonyms := @build_concept_map elements_order [[term]] [] []).
  specialize (Hclaim synonyms (build_inverted_index synonyms) term
                (index_entry {["C0001"]})).
  assert (query (expand_term synonyms (build_inverted_index synonyms) term)
          = String "(" (String "a" (String "009" "b)"))) as Hq
    by (by vm_compute).
  rewrite Hclaim in Hq; [|by vm_compute|by_evaluation].
  vm_compute in Hq. discriminate.
Qed.

(** C7, as the code has it.  For a term the index holds, the expanded terms
    are the members of the concepts the entry lists; when there is one at
    least, the query is the expanded terms in the order of their code points,
    a term that holds a blank between double quotes, joined by OR and put in
    parentheses; and it stays the same when the entry lists its concepts in
    another order. *)
Theorem expand_found_query synonyms inverted_index term index_data :
  dict_get term inverted_index = Some index_data →
  collect_synonyms synonyms (concept_ids index_data) ≠ ∅ →
  let r := expand_term synonyms inverted_index term in
  found r = true
  ∧ (∀ t, t ∈ expanded_terms r ↔
          ∃ cid terms, cid ∈ concept_ids index_data
                       ∧ dict_get cid synonyms = Some terms ∧ t ∈ terms)
  ∧ (∃ ordered,
       ordered ≡ₚ elements (expanded_terms r)
       ∧ StronglySorted String.le ordered
       ∧ query r
         = "(" +:+ Py.join " OR "
                     ((λ t, if Py.contains " " t
                            then String "034" (t +:+ String "034" "")
                            else t) <$> ordered)
               +:+ ")")
  ∧ (∀ inverted_index' index_data',
       dict_get term inverted_index' = Some index_data' →
       concept_ids index_data' ≡ₚ concept_ids index_data →
       query (expand_term synonyms inverted_index' term) = query r).
Proof.
  intros Hget Hne r. unfold r, expand_term. rewrite Hget. simpl.
  assert (0 < size (collect_synonyms synonyms (concept_ids index_data)))
    as Hsize.
  { apply Nat.neq_0_lt_0. intros E%size_empty_iff. by apply leibniz_equiv in E. }
  rewrite bool_decide_eq_true_2 by done.
  split_and!; [done|apply elem_of_collect_synonyms| |].
  - eexists. split_and!; [apply (sorted_by_perm id)| |done].
    apply (sorted_by_sorted id).
  - intros idx' e' Hget' Hperm. rewrite Hget'. simpl.
    rewrite (collect_synonyms_perm _ _ _ Hperm).
    by rewrite bool_decide_eq_true_2 by done.
Qed.

Lemma expand_found_query_witness :
  query (expand_term
           [("C0001", ["NM"; "No mejora"]); ("C0002", ["NM"; "Nistagmus"])]
           [("NM", {| concept_ids := ["C0002"; "C0001"];
                      is_ambiguous := true |})] "NM")
  = query (expand_term
             [("C0001", ["NM"; "No mejora"]); ("C0002", ["NM"; "Nistagmus"])]
             (build_inverted_index
                [("C0001", ["NM"; "No mejora"]); ("C0002", ["NM"; "Nistagmus"])])
             "NM").
Proof.
  refine (proj2 (proj2 (proj2
            (expand_found_query
               [("C0001", ["NM"; "No mejora"]); ("C0002", ["NM"; "Nistagmus"])]
               (build_inverted_index
                  [("C0001", ["NM"; "No mejora"]);
                   ("C0002", ["NM"; "Nistagmus"])])
               "NM" (index_entry {["C0001"; "C0002"]}) _ _)))
            [("NM", {| concept_ids := ["C0002"; "C0001"];
                       is_ambiguous := true |})]
            {| concept_ids := ["C0002"; "C0001"]; is_ambiguous := true |} _ _).
  - vm_compute. reflexivity.
  - by_evaluation.
  - vm_compute. reflexivity.
  - by_evaluation.
Defined.

(** C8, as stated, fails: with an entry whose concepts the Concept Map does
    not hold, the query is the term as it came, without quotes. *)
Lemma empty_expansion_not_quoted :
  ¬ (∀ synonyms inverted_index term index_data,
       dict_get term inverted_index = Some index_data →
       collect_synonyms synonyms (concept_ids index_data) = ∅ →
       query (expand_term synonyms inverted_index term)
       = String "034" (term +:+ String "034" "")).
Proof.
  intros Hclaim.
  specialize (Hclaim []
                [("a", {| concept_ids := ["C0001"]; is_ambiguous := false |})]
                "a" {| concept_ids := ["C0001"]; is_ambiguous := false |}).
  vm_compute in Hclaim. by specialize (Hclaim eq_refl eq_refl).
Qed.

(** C8, as the code has it.  A term the index holds whose concepts bring no
    term, as when none of them is in the Concept Map, is found, and its
    query is the term itself, not quoted: the value the result starts
    with. *)
Theorem expand_empty_union synonyms inverted_index term index_data :
  dict_get term inverted_index = Some index_data →
  let r := expand_term synonyms inverted_index term in
  ((∀ cid, cid ∈ concept_ids index_data → dict_get cid synonyms = None) →
   expanded_terms r = ∅)
  ∧ (expanded_terms r = ∅ → found r = true ∧ query r = term).
Proof.
  intros Hget r. unfold r, expand_term. rewrite Hget. simpl. split.
  - intros Habsent. apply set_eq. intros t.
    rewrite elem_of_collect_synonyms. split; [|by intros ?%not_elem_of_empty].
    intros (cid & terms & Hcid & Hsome & _).
    rewrite (Habsent _ Hcid) in Hsome. done.
  - intros ->. by rewrite size_empty.
Qed.

Lemma expand_empty_union_witness :
  let r := expand_term []
             [("a", {| concept_ids := ["C0001"]; is_ambiguous := false |})]
             "a" in
  found r = true ∧ query r = "a".
Proof.
  intros r.
  destruct (expand_empty_union []
              [("a", {| concept_ids := ["C0001"]; is_ambiguous := false |})]
              "a" {| concept_ids := ["C0001"]; is_ambiguous := false |}
              eq_refl) as [Hempty Hquery].
  apply Hquery, Hempty. intros cid _. reflexivity.
Defined.

(** * Further properties of the clustering engine *)

(** X1. The terms of one raw group stay together: for every raw group of
    any of the three sources whose normalized set is not empty, one concept
    of the final list holds the whole set. *)
Theorem group_stays_together sinonimos siglas_json siglas_csv normalized :
  normalized ∈ canonical_sets siglas_json
               ++ mergeable_sets sinonimos siglas_csv →
  normalized ≠ ∅ →
  ∃ concept, concept ∈ cluster sinonimos siglas_json siglas_csv
             ∧ normalized ⊆ concept.
Proof. apply cluster_contains_group. Qed.

Lemma group_stays_together_witness :
  ∃ concept,
    concept ∈ cluster [["ADD"; "Adicion"]] [("AD", ["Adicion"])] []
    ∧ normalized_set ["ADD"; "Adicion"] ⊆ concept.
Proof.
  refine (group_stays_together [["ADD"; "Adicion"]] [("AD", ["Adicion"])] []
            (normalized_set ["ADD"; "Adicion"]) _ _); by_evaluation.
Defined.

(** X2. The engine loses no term and invents none: the concepts of the
    final list hold, between them, exactly the normalized terms of the
    input. *)
Theorem cluster_covers_input sinonimos siglas_json siglas_csv t :
  (∃ concept, concept ∈ cluster sinonimos siglas_json siglas_csv ∧ t ∈ concept)
  ↔ t ∈ all_terms sinonimos siglas_json siglas_csv.
Proof.
  split.
  - intros (X & HX & Ht). by apply (cluster_subseteq _ _ _ X).
  - unfold all_terms. rewrite elem_of_union_list. intros (S & HS & Ht).
    destruct (cluster_contains_group sinonimos siglas_json siglas_csv S HS)
      as (Y & HY & Hsub); [set_solver|].
    exists Y. split; [done|set_solver].
Qed.

(** X3. Taking the same set in twice changes nothing the second time: a
    turn of the merging loops is idempotent.  So is a turn with a set that
    the first concept it meets already holds. *)
Theorem merge_set_idempotent concepts normalized :
  merge_set (merge_set concepts normalized) normalized
  = merge_set concepts normalized
  ∧ (∀ i existing,
       concepts !! i = Some existing →
       normalized ∩ existing ≠ ∅ →
       (∀ j other, j < i → concepts !! j = Some other →
                   normalized ∩ other = ∅) →
       normalized ⊆ existing →
       merge_set concepts normalized = concepts).
Proof.
  assert (∀ cs i existing,
            cs !! i = Some existing →
            normalized ∩ existing ≠ ∅ →
            (∀ j other, j < i → cs !! j = Some other →
                        normalized ∩ other = ∅) →
            normalized ⊆ existing →
            merge_set cs normalized = cs) as Hnoop.
  { intros cs i X Hi HX Hbefore Hsub. unfold merge_set.
    case_decide; [done|].
    rewrite (merge_scan_first _ _ i X) by done.
    replace (X ∪ normalized) with X by set_solver.
    by apply list_insert_id. }
  split; [|apply Hnoop].
  destruct (merge_set_cases concepts normalized)
    as [E|[(Hne & Hall & E)|(i & X & Hne & Hi & HX & Hbefore & E)]].
  - by rewrite !E.
  - rewrite E. apply (Hnoop _ (length concepts) normalized).
    + by rewrite lookup_app_r, Nat.sub_diag by lia.
    + set_solver.
    + intros j other Hj Hother. rewrite lookup_app_l in Hother by done.
      apply Hall. by eapply list_elem_of_lookup_2.
    + done.
  - rewrite E. pose proof (lookup_lt_Some _ _ _ Hi) as Hlt.
    apply (Hnoop _ i (X ∪ normalized)).
    + by apply list_lookup_insert_eq.
    + set_solver.
    + intros j other Hj Hother.
      rewrite list_lookup_insert_ne in Hother by lia. by apply (Hbefore j).
    + set_solver.
Qed.

Lemma merge_set_idempotent_witness :
  merge_set [{["AD"; "ADD"; "Adicion"]}; {["X"]}] {["ADD"; "Adicion"]}
  = [{["AD"; "ADD"; "Adicion"]}; {["X"]}].
Proof.
  refine (proj2 (merge_set_idempotent _ _) 0 _ _ _ _ _).
  - reflexivity.
  - by_evaluation.
  - intros j other Hj. lia.
  - by_evaluation.
Defined.

(** * Further properties of the inverted index *)

Lemma term_to_concepts_lookup synonyms k ids :
  term_to_concepts synonyms !! k = Some ids →
  k ≠ "" ∧ ids ≠ ∅
  ∧ ∀ c, c ∈ ids ↔ ∃ t, concept_has synonyms c t ∧ Py.strip t = k.
Proof.
  intros Hk.
  assert (∀ c, c ∈ ids ↔ lists_under (term_to_concepts synonyms) k c) as Hids.
  { intros c. unfold lists_under. rewrite Hk. split; [by eauto|].
    by intros (? & [= <-] & ?). }
  pose proof (term_to_concepts_nonempty _ _ _ Hk) as Hne.
  split_and!; [|done|].
  - destruct (set_choose_L ids Hne) as [c Hc].
    apply Hids, term_to_concepts_lists in Hc. by destruct Hc.
  - intros c. rewrite Hids, term_to_concepts_lists. unfold concept_has. split.
    + intros (_ & terms & t & ? & ? & ?). exists t. split; [by exists terms|done].
    + intros (t & (terms & ? & ?) & Ht). split.
      * destruct (set_choose_L ids Hne) as [c' Hc'].
        apply Hids, term_to_concepts_lists in Hc'. by destruct Hc'.
      * by exists terms, t.
Qed.

Lemma term_to_concepts_ext synonyms synonyms' :
  (∀ c t, concept_has synonyms c t ↔ concept_has synonyms' c t) →
  term_to_concepts synonyms = term_to_concepts synonyms'.
Proof.
  assert (∀ s s' : dict (list string),
            (∀ c t, concept_has s c t ↔ concept_has s' c t) →
            ∀ k ids, term_to_concepts s !! k = Some ids →
                     term_to_concepts s' !! k = Some ids) as Hhalf.
  { intros s s' Hsame k ids Hk.
    destruct (term_to_concepts_lookup _ _ _ Hk) as (Hne & Hids & Hmem).
    destruct (set_choose_L ids Hids) as [c Hc].
    assert (lists_under (term_to_concepts s') k c) as (ids' & Hk' & _).
    { apply term_to_concepts_lists. split; [done|].
      apply Hmem in Hc as (t & (terms & ? & ?)%Hsame & ?).
      by exists terms, t. }
    rewrite Hk'. f_equal. apply set_eq. intros c'.
    destruct (term_to_concepts_lookup _ _ _ Hk') as (_ & _ & Hmem').
    rewrite Hmem, Hmem'. by setoid_rewrite Hsame. }
  intros Hsame. apply map_eq. intros k.
  destruct (term_to_concepts synonyms !! k) as [ids|] eqn:E.
  - symmetry. by apply (Hhalf synonyms synonyms').
  - destruct (term_to_concepts synonyms' !! k) as [ids'|] eqn:E'; [|done].
    apply (Hhalf synonyms' synonyms) in E'; [congruence|].
    intros c t. symmetry. apply Hsame.
Qed.

Lemma concept_has_perm synonyms synonyms' :
  synonyms ≡ₚ synonyms' →
  ∀ c t, concept_has synonyms c t ↔ concept_has synonyms' c t.
Proof. intros Hp c t. unfold concept_has. by setoid_rewrite Hp. Qed.

(** X4. The index depends on which terms each concept holds and on nothing
    else: two Concept Maps with the same pairs of identifier and member, in
    whatever order and with whatever repetitions, give the same index. *)
Theorem index_depends_on_pairs synonyms synonyms' :
  (∀ c t, concept_has synonyms c t ↔ concept_has synonyms' c t) →
  build_inverted_index synonyms = build_inverted_index synonyms'.
Proof.
  intros Hsame. unfold build_inverted_index.
  by rewrite (term_to_concepts_ext synonyms synonyms').
Qed.

Lemma index_depends_on_pairs_witness :
  build_inverted_index [("C0001", ["a"; "b"]); ("C0002", ["a"])]
  = build_inverted_index [("C0002", ["a"]); ("C0001", ["a"; "b"])].
Proof.
  refine (index_depends_on_pairs _ _ (concept_has_perm _ _ _)).
  by_evaluation.
Defined.

(** X5. The keys of the index come in strictly increasing order of their
    code points. *)
Theorem index_keys_sorted synonyms :
  StronglySorted (strict String.le) (build_inverted_index synonyms).*1.
Proof.
  rewrite build_inverted_index_keys.
  pose proof (sorted_by_sorted fst (map_to_list (term_to_concepts synonyms)))
    as Hs.
  assert (NoDup (Py.sorted_by fst (map_to_list (term_to_concepts synonyms))).*1)
    as Hnd by (rewrite sorted_by_perm; apply NoDup_fst_map_to_list).
  induction Hs as [|x l Hl IH Hx]; csimpl; [constructor|].
  apply NoDup_cons in Hnd as [Hx' Hnd]. constructor; [by apply IH|].
  apply Forall_fmap, Forall_forall. intros y Hy. split.
  - rewrite Forall_forall in Hx. by apply Hx.
  - intros Hyx. apply Hx'.
    assert (x.1 = y.1) as ->.
    { apply (anti_symm String.le); [|done].
      rewrite Forall_forall in Hx. by apply Hx. }
    by apply list_elem_of_fmap_2.
Qed.

(** X6. An index just built has no loose end: every entry lists one
    identifier at least, and every identifier it lists is a key of the
    Concept Map. *)
Theorem index_ids_resolve synonyms k e :
  dict_get k (build_inverted_index synonyms) = Some e →
  concept_ids e ≠ []
  ∧ ∀ c, c ∈ concept_ids e → is_Some (dict_get c synonyms).
Proof.
  rewrite index_lookup.
  destruct (term_to_concepts synonyms !! k) as [ids|] eqn:Hk; [|done].
  intros [= <-].
  destruct (term_to_concepts_lookup _ _ _ Hk) as (_ & Hne & Hmem). split.
  - destruct (set_choose_L ids Hne) as [c Hc%elem_of_index_entry].
    intros E. rewrite E in Hc. by apply elem_of_nil in Hc.
  - intros c (t & (terms & Hin & _) & _)%elem_of_index_entry%Hmem.
    destruct (dict_get c synonyms) eqn:E; [done|].
    apply dict_get_None in E. destruct E.
    by apply (list_elem_of_fmap_2 fst _ (c, terms)).
Qed.

Lemma index_ids_resolve_witness :
  concept_ids (index_entry {["C0001"; "C0002"]}) ≠ []
  ∧ ∀ c, c ∈ concept_ids (index_entry {["C0001"; "C0002"]}) →
         is_Some (dict_get c [("C0001", ["a"; "b"]); ("C0002", ["a "])]).
Proof.
  refine (index_ids_resolve [("C0001", ["a"; "b"]); ("C0002", ["a "])] "a" _ _).
  vm_compute. reflexivity.
Defined.

(** * Further properties of query expansion *)

Lemma size_gt_1 (X : gset string) :
  1 < size X ↔ ∃ x y, x ∈ X ∧ y ∈ X ∧ x ≠ y.
Proof.
  split.
  - intros Hsize. destruct (size_pos_elem_of X) as [x Hx]; [lia|].
    destruct (size_pos_elem_of (X ∖ {[x]})) as [y Hy].
    { rewrite size_difference by set_solver. rewrite size_singleton. lia. }
    exists x, y. set_solver.
  - intros (x & y & Hx & Hy & Hne).
    assert (size ({[x]} ∪ {[y]} : gset string) ≤ size X) as Hle
      by (apply subseteq_size; set_solver).
    rewrite size_union, !size_singleton in Hle by set_solver. lia.
Qed.

Lemma length_sorted_elements (ids : gset string) :
  length (Py.sorted (elements ids)) = size ids.
Proof. unfold Py.sorted. by rewrite sorted_by_perm. Qed.

Lemma index_lookup_member synonyms c terms t :
  (c, terms) ∈ synonyms → t ∈ terms → Py.strip t ≠ "" →
  ∃ ids, term_to_concepts synonyms !! Py.strip t = Some ids ∧ c ∈ ids.
Proof.
  intros Hc Ht Hne. apply term_to_concepts_lists.
  split; [done|]. by exists terms, t.
Qed.

Lemma index_entry_resolves synonyms k ids c :
  term_to_concepts synonyms !! k = Some ids → c ∈ ids →
  is_Some (dict_get c synonyms).
Proof.
  intros Hk Hc.
  destruct (term_to_concepts_lookup _ _ _ Hk) as (_ & _ & Hmem).
  apply Hmem in Hc as (t & (terms & Hin & _) & _).
  destruct (dict_get c synonyms) eqn:E; [done|].
  apply dict_get_None in E. destruct E.
  by apply (list_elem_of_fmap_2 fst _ (c, terms)).
Qed.

(** X7. Against the index built from the same Concept Map, a term is found
    exactly when it is the non-empty stripped form of a member; and it comes
    back as ambiguous exactly when two entries with different identifiers
    have such a member. *)
Theorem expand_found_iff synonyms term :
  let r := expand_term synonyms (build_inverted_index synonyms) term in
  (found r = true ↔
     term ≠ "" ∧ ∃ c t, concept_has synonyms c t ∧ Py.strip t = term)
  ∧ (res_is_ambiguous r = true ↔
       ∃ c1 t1 c2 t2,
         c1 ≠ c2
         ∧ concept_has synonyms c1 t1 ∧ Py.strip t1 = term
         ∧ concept_has synonyms c2 t2 ∧ Py.strip t2 = term
         ∧ term ≠ "").
Proof.
  intros r. unfold r, expand_term. rewrite index_lookup.
  destruct (term_to_concepts synonyms !! term) as [ids|] eqn:Hk; simpl.
  - destruct (term_to_concepts_lookup _ _ _ Hk) as (Hterm & Hne & Hmem).
    split.
    + split; [intros _|done]. split; [done|].
      destruct (set_choose_L ids Hne) as [c (t & ? & ?)%Hmem]. by exists c, t.
    + rewrite bool_decide_eq_true, length_sorted_elements, size_gt_1. split.
      * intros (c1 & c2 & (t1 & ? & ?)%Hmem & (t2 & ? & ?)%Hmem & ?).
        exists c1, t1, c2, t2. by split_and!.
      * intros (c1 & t1 & c2 & t2 & ? & ? & ? & ? & ? & _).
        exists c1, c2. split_and!; [apply Hmem; by exists t1
                                   |apply Hmem; by exists t2|done].
  - assert (∀ c t, concept_has synonyms c t → Py.strip t = term →
                   term ≠ "" → False) as Habsent.
    { intros c t (terms & ? & ?) Ht Hne.
      assert (lists_under (term_to_concepts synonyms) term c)
        as (? & ? & _); [|congruence].
      apply term_to_concepts_lists. split; [done|]. by exists terms, t. }
    split; (split; [done|]).
    + intros (? & c & t & ? & ?). exfalso. by apply (Habsent c t).
    + intros (c1 & t1 & _ & _ & _ & ? & ? & _ & _ & ?). exfalso.
      by apply (Habsent c1 t1).
Qed.

(** X8. Looking a member up brings its whole concept back, unless the member
    is blank.  Take a Concept Map whose keys are distinct, the index built
    from it, and a member [t] of the concept [c].  If the stripped form of [t]
    is not empty, expanding it finds it, lists [c] among the identifiers, and
    has every member of [c] among the expanded terms, so the query is the
    parenthesised disjunction and never the bare term.  If the stripped form
    of [t] is empty (a member can be: the input term -7 becomes the empty
    member), expanding it finds nothing and gives the pair of double quotes
    as the query. *)
Theorem expand_returns_concept synonyms c terms t :
  NoDup synonyms.*1 →
  (c, terms) ∈ synonyms → t ∈ terms →
  let r := expand_term synonyms (build_inverted_index synonyms) (Py.strip t) in
  (Py.strip t ≠ "" →
     found r = true
     ∧ c ∈ res_concept_ids r
     ∧ (∀ u, u ∈ terms → u ∈ expanded_terms r)
     ∧ (∀ c', c' ∈ res_concept_ids r → is_Some (dict_get c' synonyms))
     ∧ ∃ ordered,
         ordered ≡ₚ elements (expanded_terms r)
         ∧ query r = "(" +:+ Py.join " OR " (quote_spaced <$> ordered) +:+ ")")
  ∧ (Py.strip t = "" →
     found r = false
     ∧ res_concept_ids r = []
     ∧ expanded_terms r = {[""]}
     ∧ query r = quoted "").
Proof.
  intros Hnd Hc Ht r. split.
  - intros Hne.
    destruct (index_lookup_member synonyms c terms t Hc Ht Hne)
      as (ids & Hids & Hcids).
    assert (∀ u, u ∈ terms →
                 u ∈ collect_synonyms synonyms (concept_ids (index_entry ids)))
      as Hall.
    { intros u Hu. apply elem_of_collect_synonyms. exists c, terms.
      split_and!; [by apply elem_of_index_entry| |done].
      by apply dict_get_elem. }
    unfold r, expand_term. rewrite index_lookup, Hids.
    cbn [fmap option_fmap option_map found res_concept_ids expanded_terms
         query].
    split_and!; [done|by apply elem_of_index_entry|done| |].
    + intros c' Hc'%elem_of_index_entry.
      by apply (index_entry_resolves synonyms (Py.strip t) ids).
    + rewrite bool_decide_eq_true_2.
      * eexists. split; [|done]. apply (sorted_by_perm id).
      * apply Nat.neq_0_lt_0. intros E%size_empty_iff.
        apply leibniz_equiv in E. specialize (Hall t Ht).
        rewrite E in Hall. by apply not_elem_of_empty in Hall.
  - intros E. unfold r, expand_term. rewrite E, index_lookup.
    destruct (term_to_concepts synonyms !! "") as [ids|] eqn:Hk; [|done].
    by destruct (term_to_concepts_lookup _ _ _ Hk) as (Hterm & _).
Qed.

Lemma expand_returns_concept_witness :
  let r := expand_term [("C0001", ["CIL"; "CYL"; "Cilindro"]); ("C0002", ["NM"])]
             (build_inverted_index
                [("C0001", ["CIL"; "CYL"; "Cilindro"]); ("C0002", ["NM"])])
             (Py.strip "CYL") in
  found r = true
  ∧ "C0001" ∈ res_concept_ids r
  ∧ (∀ u, u ∈ ["CIL"; "CYL"; "Cilindro"] → u ∈ expanded_terms r)
  ∧ (∀ c', c' ∈ res_concept_ids r →
           is_Some (dict_get c' [("C0001", ["CIL"; "CYL"; "Cilindro"]);
                                 ("C0002", ["NM"])]))
  ∧ ∃ ordered,
      ordered ≡ₚ elements (expanded_terms r)
      ∧ query r = "(" +:+ Py.join " OR " (quote_spaced <$> ordered) +:+ ")".
Proof.
  refine (proj1 (expand_returns_concept
                   [("C0001", ["CIL"; "CYL"; "Cilindro"]); ("C0002", ["NM"])]
                   "C0001" ["CIL"; "CYL"; "Cilindro"] "CYL" _ _ _) _);
    by_evaluation.
Defined.

(** X9. [expand_query] looks the stripped query up: white space around the
    query changes nothing, the result names the stripped query as the
    original, and against a built index a blank query is not found and its
    query string is a pair of double quotes. *)
Theorem expand_query_strips synonyms inverted_index q :
  expand_query synonyms inverted_index q
  = expand_term synonyms inverted_index (Py.strip q)
  ∧ expand_query synonyms inverted_index (Py.strip q)
    = expand_query synonyms inverted_index q
  ∧ original (expand_query synonyms inverted_index q) = Py.strip q
  ∧ (Py.strip q = "" →
     let r := expand_query synonyms (build_inverted_index synonyms) q in
     found r = false ∧ query r = String "034" (String "034" "")).
Proof.
  unfold expand_query. rewrite strip_idemp. split_and!; [done|done| |].
  - unfold expand_term. by destruct (dict_get _ _).
  - intros Hblank. unfold expand_term. rewrite Hblank, index_lookup.
    destruct (term_to_concepts synonyms !! "") as [ids|] eqn:E; [|done].
    by destruct (term_to_concepts_lookup _ _ _ E) as [? _].
Qed.

Lemma expand_query_strips_witness :
  let r := expand_query [("C0001", ["a"])]
             (build_inverted_index [("C0001", ["a"])]) "   " in
  found r = false ∧ query r = String "034" (String "034" "").
Proof.
  refine (proj2 (proj2 (proj2
            (expand_query_strips [("C0001", ["a"])] [] "   "))) _).
  reflexivity.
Defined.

(** * Statistics of the inverted index *)

Lemma sum_ones {A} (l : list A) z :
  foldl Z.add z ((λ _, 1%Z) <$> l) = (z + Z.of_nat (length l))%Z.
Proof.
  revert z. induction l as [|x l IH]; intros z; csimpl; [lia|].
  rewrite IH. lia.
Qed.

Lemma most_ambiguous_fold inverted_index max0 term0 :
  let final :=
    foldl GenerarIndice.most_ambiguous_step (max0, term0) inverted_index in
  (max0 ≤ final.1)%Z
  ∧ (∀ item, item ∈ inverted_index →
             (Z.of_nat (length (concept_ids item.2)) ≤ final.1)%Z)
  ∧ (final = (max0, term0)
     ∨ (max0 < final.1)%Z
       ∧ ∃ i item,
           inverted_index !! i = Some item
           ∧ final.2 = Some item.1
           ∧ Z.of_nat (length (concept_ids item.2)) = final.1
           ∧ ∀ j other, j < i → inverted_index !! j = Some other →
                        (Z.of_nat (length (concept_ids other.2)) < final.1)%Z).
Proof.
  revert max0 term0.
  induction inverted_index as [|h r IH]; intros max0 term0; simpl.
  - split_and!; [lia| |by left]. by intros ? ?%elem_of_nil.
  - destruct (GenerarIndice.most_ambiguous_step (max0, term0) h)
      as [max1 term1] eqn:Estep.
    unfold GenerarIndice.most_ambiguous_step in Estep. simpl in Estep.
    destruct (IH max1 term1) as (Hle & Hall & Hlast).
    case_bool_decide as Hgt; simplify_eq.
    + split_and!; [lia| |right].
      * intros item [->|Hin]%elem_of_cons; [done|by apply Hall].
      * split; [lia|].
        destruct Hlast as [E|(Hlt & i & item & Hi & Ht & Hm & Hb)].
        -- exists 0, h. rewrite E. split_and!; [done..|]. intros; lia.
        -- exists (S i), item. split_and!; [done..|].
           intros [|j] other Hj Ho; [injection Ho as <-; exact Hlt|].
           apply (Hb j); [lia|done].
    + split_and!; [done| |].
      * intros item [->|Hin]%elem_of_cons; [lia|by apply Hall].
      * destruct Hlast as [E|(Hlt & i & item & Hi & Ht & Hm & Hb)]; [by left|].
        right. split; [done|]. exists (S i), item. split_and!; [done..|].
        intros [|j] other Hj Ho; [injection Ho as <-; lia|].
        apply (Hb j); [lia|done].
Qed.

Lemma length_filter_split {A} (P : A → Prop) `{!∀ x, Decision (P x)}
    (l : list A) :
  length (filter P l) + length (filter (λ x, ¬ P x) l) = length l.
Proof.
  induction l as [|x l IH]; [done|]. rewrite !filter_cons.
  destruct (decide (P x)).
  - rewrite decide_False by auto. simpl. lia.
  - rewrite decide_True by auto. simpl. lia.
Qed.

(** X10. The statistics count every term once: the ambiguous terms are
    the entries whose flag is set, the unambiguous ones are the others, and
    the two add up to the total, which is the number of entries. *)
Theorem statistics_partition inverted_index :
  let s := GenerarIndice.generate_statistics inverted_index in
  GenerarIndice.total_terms s = Z.of_nat (length inverted_index)
  ∧ GenerarIndice.ambiguous_terms s
    = Z.of_nat (length (filter (λ item, is_ambiguous item.2 = true)
                          inverted_index))
  ∧ GenerarIndice.unambiguous_terms s
    = Z.of_nat (length (filter (λ item, is_ambiguous item.2 ≠ true)
                          inverted_index))
  ∧ (GenerarIndice.ambiguous_terms s + GenerarIndice.unambiguous_terms s
     = GenerarIndice.total_terms s)%Z.
Proof.
  intros s.
  assert (GenerarIndice.total_terms s = Z.of_nat (length inverted_index))
    as Ht by done.
  assert (GenerarIndice.ambiguous_terms s
          = Z.of_nat (length (filter (λ item, is_ambiguous item.2 = true)
                                inverted_index))) as Ha.
  { unfold s, GenerarIndice.generate_statistics. simpl. rewrite sum_ones.
    apply Z.add_0_l. }
  assert (GenerarIndice.unambiguous_terms s
          = (GenerarIndice.total_terms s - GenerarIndice.ambiguous_terms s)%Z)
    as Hu by done.
  pose proof (length_filter_split (λ item : string * entry,
                is_ambiguous item.2 = true) inverted_index) as Hsplit.
  cbv beta in Hsplit. rewrite Hu, Ha, Ht. unfold dict in *.
  split_and!; [done..| |lia]. rewrite <-Hsplit. lia.
Qed.

(** X11. The maximum the statistics report is the greatest number of
    concepts of an entry, and the term they name is the first entry, in the
    order of the index, that reaches it; when every entry lists no concept,
    or the index is empty, the maximum is 0 and no term is named. *)
Theorem statistics_maximum inverted_index :
  let s := GenerarIndice.generate_statistics inverted_index in
  let max := GenerarIndice.max_concepts_per_term s in
  (∀ k e, (k, e) ∈ inverted_index → (Z.of_nat (length (concept_ids e)) ≤ max)%Z)
  ∧ match GenerarIndice.most_ambiguous_term s with
    | None => max = 0%Z
    | Some term =>
        (0 < max)%Z
        ∧ ∃ i e,
            inverted_index !! i = Some (term, e)
            ∧ Z.of_nat (length (concept_ids e)) = max
            ∧ ∀ j other, j < i → inverted_index !! j = Some other →
                         (Z.of_nat (length (concept_ids other.2)) < max)%Z
    end.
Proof.
  intros s max. unfold max, s, GenerarIndice.generate_statistics. simpl.
  destruct (most_ambiguous_fold inverted_index 0 None)
    as (Hle & Hall & Hlast). simpl in *. split.
  - intros k e Hin. by apply (Hall (k, e)).
  - destruct Hlast as [->|(Hlt & i & [term e] & Hi & -> & Hm & Hb)]; [done|].
    split; [done|]. by exists i, e.
Qed.

Lemma filter_none {A} (P : A → Prop) `{!∀ x, Decision (P x)} (l : list A) :
  Forall (λ x, ¬ P x) l → filter P l = [].
Proof.
  induction 1 as [|x l Hx Hl IH]; [done|].
  by rewrite filter_cons, decide_False.
Qed.

Lemma elem_of_stripped_members synonyms k :
  k ∈ stripped_members synonyms
  ↔ k ≠ "" ∧ ∃ c t, concept_has synonyms c t ∧ Py.strip t = k.
Proof.
  unfold stripped_members, concept_has.
  rewrite elem_of_list_to_set, list_elem_of_filter, list_elem_of_fmap.
  split.
  - intros (Hne & t & -> & (terms & Ht & Hterms)%list_elem_of_join).
    apply list_elem_of_fmap in Hterms as ([c terms'] & -> & Hin).
    split; [done|]. exists c, t. split; [by exists terms'|done].
  - intros (Hne & c & t & (terms & Hin & Ht) & <-). split; [done|].
    exists t. split; [done|]. apply list_elem_of_join. exists terms.
    split; [done|]. by apply (list_elem_of_fmap_2 snd _ (c, terms)).
Qed.

Lemma dom_term_to_concepts synonyms :
  dom (term_to_concepts synonyms) = stripped_members synonyms.
Proof.
  apply set_eq. intros k. rewrite elem_of_dom, elem_of_stripped_members. split.
  - intros [ids Hk].
    destruct (term_to_concepts_lookup _ _ _ Hk) as (Hne & Hids & Hmem).
    split; [done|]. destruct (set_choose_L ids Hids) as [c Hc].
    apply Hmem in Hc as (t & ? & ?). by exists c, t.
  - intros (Hne & c & t & (terms & ? & ?) & Hk).
    assert (lists_under (term_to_concepts synonyms) k c) as (ids & -> & _);
      [|done].
    apply term_to_concepts_lists. split; [done|]. by exists terms, t.
Qed.

Lemma length_build_inverted_index synonyms :
  length (build_inverted_index synonyms) = size (stripped_members synonyms).
Proof.
  rewrite build_inverted_index_entries, length_fmap, sorted_by_perm.
  rewrite <-dom_term_to_concepts, size_dom. apply length_map_to_list.
Qed.

Lemma elem_of_build_inverted_index synonyms item :
  item ∈ build_inverted_index synonyms →
  ∃ ids, term_to_concepts synonyms !! item.1 = Some ids
         ∧ item.2 = index_entry ids.
Proof.
  rewrite build_inverted_index_entries.
  intros ([k ids] & -> & Hin)%list_elem_of_fmap.
  rewrite sorted_by_perm in Hin. apply elem_of_map_to_list in Hin.
  by exists ids.
Qed.

(** X12. The statistics of an index just built: the total is the number of
    different non-empty stripped member terms of the Concept Map; no term is
    counted as ambiguous exactly when the reported maximum is one at most;
    and unless the Concept Map has no such term, the maximum is one at least
    and the term named with it is one of those terms. *)
Theorem statistics_of_built_index synonyms :
  let s := GenerarIndice.generate_statistics (build_inverted_index synonyms) in
  GenerarIndice.total_terms s = Z.of_nat (size (stripped_members synonyms))
  ∧ (GenerarIndice.ambiguous_terms s = 0%Z
     ↔ (GenerarIndice.max_concepts_per_term s ≤ 1)%Z)
  ∧ (stripped_members synonyms ≠ ∅ →
     (1 ≤ GenerarIndice.max_concepts_per_term s)%Z
     ∧ ∃ term, GenerarIndice.most_ambiguous_term s = Some term
               ∧ term ∈ stripped_members synonyms).
Proof.
  intros s.
  set (idx := build_inverted_index synonyms) in *.
  assert (∀ item, item ∈ idx →
            1 ≤ length (concept_ids item.2)
            ∧ is_ambiguous item.2
              = bool_decide (1 < length (concept_ids item.2))) as Hitem.
  { intros item (ids & Hk & ->)%elem_of_build_inverted_index. split; [|done].
    unfold index_entry. simpl. rewrite length_sorted_elements.
    pose proof (term_to_concepts_nonempty _ _ _ Hk) as Hne.
    destruct (decide (size ids = 0)) as [E%size_empty_iff|]; [|lia].
    by apply leibniz_equiv in E. }
  destruct (most_ambiguous_fold idx 0 None) as (_ & Hall & Hlast).
  assert (GenerarIndice.ambiguous_terms s
          = Z.of_nat (length (filter (λ item, is_ambiguous item.2 = true) idx)))
    as Ha.
  { unfold s, GenerarIndice.generate_statistics. simpl. rewrite sum_ones.
    apply Z.add_0_l. }
  change (GenerarIndice.max_concepts_per_term s)
    with (foldl GenerarIndice.most_ambiguous_step (0%Z, None) idx).1.
  change (GenerarIndice.most_ambiguous_term s)
    with (foldl GenerarIndice.most_ambiguous_step (0%Z, None) idx).2.
  simpl in Hall, Hlast.
  set (final := foldl GenerarIndice.most_ambiguous_step (0%Z, None) idx) in *.
  split_and!.
  - unfold s, GenerarIndice.generate_statistics. simpl. unfold idx.
    by rewrite length_build_inverted_index.
  - rewrite Ha. split.
    + intros Hzero.
      destruct Hlast as [->|(_ & i & item & Hi & _ & <- & _)]; [simpl; lia|].
      apply list_elem_of_lookup_2 in Hi.
      destruct (Hitem item Hi) as [_ Hflag].
      destruct (decide (is_ambiguous item.2 = true)) as [Htrue|Hfalse].
      * assert (item ∈ filter (λ item, is_ambiguous item.2 = true) idx) as Hin
          by (by apply list_elem_of_filter).
        destruct (filter _ idx); [by apply elem_of_nil in Hin|simpl in *; lia].
      * rewrite Hflag in Hfalse. case_bool_decide; [done|lia].
    + intros Hmax.
      assert (filter (λ item, is_ambiguous item.2 = true) idx = []) as ->;
        [|done].
      apply filter_none, Forall_forall. intros item Hin.
      destruct (Hitem item Hin) as [_ ->]. specialize (Hall item Hin).
      case_bool_decide; [lia|done].
  - intros Hne.
    assert (idx ≠ []) as Hidx.
    { intros E. apply Hne, leibniz_equiv, size_empty_inv.
      rewrite <-length_build_inverted_index. fold idx. by rewrite E. }
    destruct idx as [|item0 rest] eqn:Eidx; [done|].
    assert (item0 ∈ item0 :: rest) as Hin0 by left.
    destruct (Hitem item0 Hin0) as [Hlen0 _]. specialize (Hall item0 Hin0).
    split; [lia|].
    destruct Hlast as [E|(_ & i & item & Hi & -> & _ & _)].
    { rewrite E in Hall. simpl in Hall. lia. }
    exists item.1. split; [done|].
    apply list_elem_of_lookup_2 in Hi. rewrite <-Eidx in Hi.
    apply elem_of_build_inverted_index in Hi as (ids & Hk & _).
    rewrite <-dom_term_to_concepts. apply elem_of_dom. by exists ids.
Qed.

Lemma statistics_of_built_index_witness :
  let s := GenerarIndice.generate_statistics
             (build_inverted_index [("C0001", ["NM"; "a"]); ("C0002", ["NM "])])
  in
  (1 ≤ GenerarIndice.max_concepts_per_term s)%Z
  ∧ ∃ term, GenerarIndice.most_ambiguous_term s = Some term
            ∧ term ∈ stripped_members
                       [("C0001", ["NM"; "a"]); ("C0002", ["NM "])].
Proof.
  refine (proj2 (proj2 (statistics_of_built_index
                          [("C0001", ["NM"; "a"]); ("C0002", ["NM "])])) _).
  by_evaluation.
Defined.

(** * The concept signature *)

(** X13. The signature of a group holds the non-empty stripped terms of the
    group, each once, in non-decreasing order of their lower-cased forms; and
    where no two of them agree up to case, it depends neither on the order,
    the repetitions and the padding of the terms given, nor on the order in
    which the set yields them. *)
Theorem signature_canonical (O1 O2 : SetOrder) terms terms' :
  (∀ t, t ∈ @create_concept_signature O1 terms ↔ t ∈ normalized_set terms)
  ∧ NoDup (@create_concept_signature O1 terms)
  ∧ StronglySorted (key_le Py.lower) (@create_concept_signature O1 terms)
  ∧ (normalized_set terms = normalized_set terms' →
     NoDup (Py.lower <$> elements (normalized_set terms)) →
     @create_concept_signature O1 terms = @create_concept_signature O2 terms').
Proof.
  unfold create_concept_signature. split_and!.
  - intros t. by rewrite sorted_by_perm, set_iter_perm, elem_of_elements.
  - rewrite sorted_by_perm, set_iter_perm. apply NoDup_elements.
  - apply sorted_by_sorted.
  - intros <- Hnd. apply sorted_by_unique.
    + by rewrite !set_iter_perm.
    + by rewrite set_iter_perm.
Qed.

Lemma signature_canonical_witness :
  @create_concept_signature elements_order ["CIL"; " Cilindro "; "CYL"]
  = @create_concept_signature reverse_order ["CYL"; "CIL"; "CIL "; "Cilindro"].
Proof.
  refine (proj2 (proj2 (proj2 (signature_canonical elements_order reverse_order
                                 ["CIL"; " Cilindro "; "CYL"]
                                 ["CYL"; "CIL"; "CIL "; "Cilindro"]))) _ _).
  - vm_compute. reflexivity.
  - by_evaluation.
Defined.

(** * The loaders *)

Lemma string_app_cons c (s t : string) :
  String c s +:+ t = String c (s +:+ t).
Proof. done. Qed.

Lemma string_app_assoc (s t u : string) : (s +:+ t) +:+ u = s +:+ (t +:+ u).
Proof.
  induction s as [|c s IH]; [done|]. by rewrite !string_app_cons, IH.
Qed.

Lemma string_app_nil_r (s : string) : s +:+ "" = s.
Proof.
  induction s as [|c s IH]; [done|]. by rewrite string_app_cons, IH.
Qed.

Lemma contains_app c (s t : string) :
  Py.contains c (s +:+ t) = Py.contains c s || Py.contains c t.
Proof.
  induction s as [|d s IH]; [done|]. rewrite string_app_cons. simpl.
  case_decide; [done|]. apply IH.
Qed.

Lemma contains_lstrip c s :
  Py.contains c s = false → Py.contains c (Py.lstrip s) = false.
Proof.
  induction s as [|d s IH]; simpl; [done|].
  destruct (Py.isspace d); [|done]. case_decide; [done|]. apply IH.
Qed.

Lemma contains_rstrip c s :
  Py.contains c s = false → Py.contains c (Py.rstrip s) = false.
Proof.
  induction s as [|d s IH]; simpl; [done|].
  case_decide as Hd; [done|]. intros Hs. specialize (IH Hs).
  destruct (Py.rstrip s) as [|e r] eqn:E.
  - destruct (Py.isspace d); simpl; [done|]. by rewrite decide_False.
  - simpl. rewrite decide_False by done. exact IH.
Qed.

Lemma contains_strip c s :
  Py.contains c s = false → Py.contains c (Py.strip s) = false.
Proof. intros Hs. by apply contains_rstrip, contains_lstrip. Qed.

Lemma flush_item_clean items current_item :
  Forall clean_item items →
  Py.contains "," current_item = false →
  Forall clean_item (flush_item items current_item).
Proof.
  intros Hitems Hcur. unfold flush_item. case_decide as Hne; [done|].
  apply Forall_app. split; [done|]. apply Forall_singleton.
  split_and!; [done|apply strip_idemp|by apply contains_strip].
Qed.

Lemma split_items_clean content items current_item :
  Forall clean_item items →
  Py.contains "," current_item = false →
  Forall clean_item (split_items content items current_item).
Proof.
  revert items current_item.
  induction content as [|char rest IH]; intros items cur Hitems Hcur; simpl.
  - by apply flush_item_clean.
  - case_decide as Hchar.
    + apply IH; [by apply flush_item_clean|done].
    + apply IH; [done|]. rewrite contains_app, Hcur. simpl.
      by rewrite decide_False by congruence.
Qed.

Lemma load_sinonimos_yml_groups lines group :
  group ∈ load_sinonimos_yml lines → group ≠ [] ∧ Forall clean_item group.
Proof.
  unfold load_sinonimos_yml.
  assert (∀ acc, Forall (λ g, g ≠ [] ∧ Forall clean_item g) acc →
                 Forall (λ g, g ≠ [] ∧ Forall clean_item g)
                   (foldl sinonimos_step acc lines)) as Hgen.
  { induction lines as [|line r IH]; intros acc Hacc; simpl; [done|].
    apply IH. unfold sinonimos_step. cbv zeta.
    destruct (_ && _); [|done]. case_decide as Hitems; [done|].
    apply Forall_app. split; [done|]. apply Forall_singleton.
    split; [done|]. by apply split_items_clean. }
  intros Hin. specialize (Hgen [] ltac:(done)).
  rewrite Forall_forall in Hgen. by apply Hgen.
Qed.

Lemma normalized_set_clean terms :
  Forall (λ t, t ≠ "" ∧ stripped t) terms →
  normalized_set terms = list_to_set terms.
Proof.
  intros Hall. unfold normalized_set. f_equal.
  induction Hall as [|t r [Hne Ht] Hr IH]; csimpl; [done|].
  unfold normalize_term at 1. rewrite Ht, filter_cons, decide_True by done.
  by rewrite IH.
Qed.

(** X14. What [load_sinonimos_yml] hands on: every group it returns has an
    item at least, and every item is non-empty, stripped and free of commas;
    hence the clustering engine takes each group as it is, never dropping
    it. *)
Theorem loaded_groups_survive lines group concepts :
  group ∈ load_sinonimos_yml lines →
  group ≠ []
  ∧ Forall clean_item group
  ∧ normalized_set group = list_to_set group
  ∧ normalized_set group ≠ ∅
  ∧ ∃ i concept, merge_step concepts group !! i = Some concept
                 ∧ list_to_set group ⊆ concept.
Proof.
  intros [Hne Hclean]%load_sinonimos_yml_groups.
  assert (normalized_set group = list_to_set group) as Hnorm.
  { apply normalized_set_clean. eapply Forall_impl; [done|].
    by intros t (? & ? & _). }
  assert (normalized_set group ≠ ∅) as Hnonempty.
  { rewrite Hnorm. destruct group as [|t r]; [done|]. set_solver. }
  split_and!; [done..|].
  unfold merge_step. rewrite <-Hnorm. by apply merge_set_contains.
Qed.

Lemma loaded_groups_survive_witness :
  ["CIL"; "CYL"; "Cilindro"] ≠ []
  ∧ Forall clean_item ["CIL"; "CYL"; "Cilindro"]
  ∧ normalized_set ["CIL"; "CYL"; "Cilindro"]
    = list_to_set ["CIL"; "CYL"; "Cilindro"]
  ∧ normalized_set ["CIL"; "CYL"; "Cilindro"] ≠ ∅
  ∧ ∃ i concept,
      merge_step [] ["CIL"; "CYL"; "Cilindro"] !! i = Some concept
      ∧ list_to_set ["CIL"; "CYL"; "Cilindro"] ⊆ concept.
Proof.
  refine (loaded_groups_survive
            ["# sinonimos"; "[CIL, CYL ,Cilindro,]"; "[ , ]"; "x: [a]"]
            ["CIL"; "CYL"; "Cilindro"] [] _).
  by_evaluation.
Defined.

Lemma rstrip_app_nonspace s c :
  Py.isspace c = false → Py.rstrip (s +:+ String c "") = s +:+ String c "".
Proof.
  intros Hc. induction s as [|d s IH].
  - simpl. by rewrite Hc.
  - rewrite string_app_cons. simpl. rewrite IH.
    by destruct s.
Qed.

Lemma rstrip_app_space s c :
  Py.isspace c = true → Py.rstrip (s +:+ String c "") = Py.rstrip s.
Proof.
  intros Hc. induction s as [|d s IH].
  - simpl. by rewrite Hc.
  - rewrite string_app_cons. simpl. by rewrite IH.
Qed.

Lemma endswith_app s c : PyStr.endswith c (s +:+ String c "") = true.
Proof.
  induction s as [|d s IH]; [simpl; by rewrite bool_decide_eq_true_2|].
  rewrite string_app_cons. cbn [PyStr.endswith]. rewrite IH. by destruct s.
Qed.

Lemma drop_last_app s c : PyStr.drop_last (s +:+ String c "") = s.
Proof.
  induction s as [|d s IH]; [done|].
  rewrite string_app_cons. cbn [PyStr.drop_last]. rewrite IH. by destruct s.
Qed.

Lemma split_items_prefix x rest items current_item :
  Py.contains "," x = false →
  split_items (x +:+ rest) items current_item
  = split_items rest items (current_item +:+ x).
Proof.
  revert current_item. induction x as [|c x IH]; intros cur Hx.
  - by rewrite string_app_nil_r.
  - simpl in Hx. case_decide as Hc; [done|].
    rewrite string_app_cons. simpl. rewrite decide_False by congruence.
    rewrite IH by done. by rewrite string_app_assoc.
Qed.

Lemma split_items_join lead group items :
  (∀ x, clean_item x → Py.strip (lead +:+ x) = x) →
  group ≠ [] → Forall clean_item group →
  split_items (Py.join ", " group) items lead = items ++ group.
Proof.
  intros Hlead Hne Hall. revert lead items Hlead Hne.
  induction Hall as [|x r Hx Hr IH]; intros lead items Hlead Hne; [done|].
  destruct Hx as (Hx1 & Hx2 & Hx3).
  destruct r as [|y r].
  - simpl. rewrite <-(string_app_nil_r x) at 1.
    rewrite split_items_prefix by done. simpl. unfold flush_item.
    rewrite Hlead by done. by rewrite decide_False.
  - change (Py.join ", " (x :: y :: r))
      with (x +:+ ", " +:+ Py.join ", " (y :: r)).
    rewrite split_items_prefix by done.
    change (", " +:+ ?s) with (String "," (String " " s)).
    cbn [split_items]. rewrite decide_True by done.
    rewrite decide_False by done. unfold flush_item at 1.
    rewrite Hlead by done. rewrite decide_False by done.
    rewrite IH; [by rewrite <-app_assoc| |done].
    intros z (Hz1 & Hz2 & _). change (("" +:+ " ") +:+ z) with (String " " z).
    unfold Py.strip. simpl. exact Hz2.
Qed.

Lemma sinonimos_step_line sinonimos group :
  group ≠ [] → Forall clean_item group →
  sinonimos_step sinonimos (sinonimos_line group) = sinonimos ++ [group].
Proof.
  intros Hne Hall. unfold sinonimos_step, sinonimos_line.
  assert (Py.strip ("[" +:+ Py.join ", " group +:+ "]" +:+ String "010" "")
          = String "[" (Py.join ", " group +:+ "]")) as ->.
  { unfold Py.strip. change ("[" +:+ ?s) with (String "[" s).
    cbn [Py.lstrip]. change (Py.isspace "[") with false. cbv iota.
    rewrite <-string_app_cons, <-string_app_assoc.
    rewrite rstrip_app_space by done.
    rewrite <-string_app_cons. by rewrite rstrip_app_nonspace. }
  cbv zeta. cbn [PyStr.startswith PyStr.slice_1_m1].
  rewrite bool_decide_eq_true_2 by done.
  rewrite <-string_app_cons, endswith_app, drop_last_app. simpl.
  rewrite split_items_join; [|by intros x (_ & ? & _)|done..].
  simpl. rewrite decide_False; [done|]. by destruct group.
Qed.

Lemma contains_join c sep l :
  Py.contains c sep = false →
  Forall (λ x, Py.contains c x = false) l →
  Py.contains c (Py.join sep l) = false.
Proof.
  intros Hsep Hall. induction Hall as [|x r Hx Hr IH]; [done|].
  destruct r as [|y r]; [done|].
  change (Py.join sep (x :: y :: r)) with (x +:+ sep +:+ Py.join sep (y :: r)).
  by rewrite !contains_app, Hx, Hsep, IH.
Qed.

(** Up to the first line feed of a content without a carriage return
    before it, the file gives one line. *)
Lemma text_lines_go_line body rest current :
  line_break_free body →
  PyStr.text_lines_go (body +:+ String "010" rest) current
  = (current +:+ body +:+ String "010" "") :: PyStr.text_lines_go rest "".
Proof.
  revert current. induction body as [|c body IH]; intros current [Hlf Hcr].
  - change ("" +:+ ?x) with x. cbn [PyStr.text_lines_go].
    by rewrite decide_True.
  - simpl in Hlf, Hcr. repeat case_decide; try done.
    rewrite string_app_cons. cbn [PyStr.text_lines_go].
    rewrite !decide_False by congruence.
    rewrite IH by done. by rewrite string_app_assoc.
Qed.

Lemma sinonimos_line_break_free group :
  Forall line_item group →
  line_break_free ("[" +:+ Py.join ", " group +:+ "]").
Proof.
  intros Hall. split.
  - rewrite !contains_app, contains_join; [done..|].
    eapply Forall_impl; [done|]. by intros x (_ & ? & _).
  - rewrite !contains_app, contains_join; [done..|].
    eapply Forall_impl; [done|]. by intros x (_ & _ & ?).
Qed.

Lemma text_lines_sinonimos_file groups :
  Forall (Forall line_item) groups →
  PyStr.text_lines (sinonimos_file groups) = sinonimos_line <$> groups.
Proof.
  unfold PyStr.text_lines. induction 1 as [|g r Hg Hr IH]; [done|].
  rewrite fmap_cons. cbn [sinonimos_file foldr]. fold (sinonimos_file r).
  assert (sinonimos_line g +:+ sinonimos_file r
          = ("[" +:+ Py.join ", " g +:+ "]")
            +:+ String "010" (sinonimos_file r)) as ->.
  { unfold sinonimos_line. by rewrite !string_app_assoc. }
  rewrite text_lines_go_line by by apply sinonimos_line_break_free.
  rewrite IH. f_equal. unfold sinonimos_line.
  change ("" +:+ ?x) with x. by rewrite !string_app_assoc.
Qed.

(** X15. Reading back what was written.  Take groups, none of them empty,
    of items that are non-empty, stripped, free of commas and free of line
    breaks, and the file that has one line for each group: the items between
    brackets, separated by a comma and a blank.  Read in text mode the file
    gives these lines, one for each group, and it loads as those groups, in
    order.  The condition on line breaks is needed: an item with a line feed
    inside spreads its group over two lines, and neither is loaded. *)
Theorem sinonimos_round_trip :
  (∀ groups,
     Forall (λ group, group ≠ [] ∧ Forall line_item group) groups →
     PyStr.text_lines (sinonimos_file groups) = sinonimos_line <$> groups
     ∧ load_sinonimos_yml (PyStr.text_lines (sinonimos_file groups)) = groups)
  ∧ (let item := "a" +:+ String "010" "b" in
     clean_item item
     ∧ PyStr.text_lines (sinonimos_file [[item]])
       = ["[a" +:+ String "010" ""; "b]" +:+ String "010" ""]
     ∧ load_sinonimos_yml (PyStr.text_lines (sinonimos_file [[item]])) = []).
Proof.
  split.
  - intros groups Hall.
    assert (PyStr.text_lines (sinonimos_file groups) = sinonimos_line <$> groups)
      as Hlines.
    { apply text_lines_sinonimos_file. eapply Forall_impl; [done|].
      by intros g [_ ?]. }
    split; [done|]. rewrite Hlines. unfold load_sinonimos_yml.
    assert (∀ acc, foldl sinonimos_step acc (sinonimos_line <$> groups)
                   = acc ++ groups) as Hgen; [|apply Hgen].
    clear Hlines. induction Hall as [|g r [Hne Hg] Hr IH]; intros acc; csimpl.
    + by rewrite app_nil_r.
    + rewrite sinonimos_step_line; [|done|].
      * by rewrite IH, <-app_assoc.
      * eapply Forall_impl; [done|]. by intros x [? _].
  - cbv zeta. split_and!; [by_evaluation|by vm_compute..].
Qed.

Lemma sinonimos_round_trip_witness :
  PyStr.text_lines
    (sinonimos_file [["CIL"; "CYL"; "Cilindro"]; ["No mejora"; "NM"]])
  = sinonimos_line <$> [["CIL"; "CYL"; "Cilindro"]; ["No mejora"; "NM"]]
  ∧ load_sinonimos_yml
      (PyStr.text_lines
         (sinonimos_file [["CIL"; "CYL"; "Cilindro"]; ["No mejora"; "NM"]]))
    = [["CIL"; "CYL"; "Cilindro"]; ["No mejora"; "NM"]].
Proof.
  refine (proj1 sinonimos_round_trip
            [["CIL"; "CYL"; "Cilindro"]; ["No mejora"; "NM"]] _).
  by_evaluation.
Defined.

Lemma load_siglas_csv_rows reader sigla expansion :
  (sigla, expansion) ∈ load_siglas_csv reader →
  ∃ row sigla0 expansion0,
    row ∈ reader
    ∧ dict_get "Sigla" row = Some (Some sigla0)
    ∧ dict_get expansion_field row = Some (Some expansion0)
    ∧ sigla = Py.strip sigla0 ∧ expansion = Py.strip expansion0
    ∧ sigla ≠ "" ∧ expansion ≠ "".
Proof.
  unfold load_siglas_csv.
  assert (∀ acc,
            (sigla, expansion) ∈ foldl csv_row_step acc reader →
            (sigla, expansion) ∈ acc
            ∨ ∃ row sigla0 expansion0,
                row ∈ reader
                ∧ dict_get "Sigla" row = Some (Some sigla0)
                ∧ dict_get expansion_field row = Some (Some expansion0)
                ∧ sigla = Py.strip sigla0 ∧ expansion = Py.strip expansion0
                ∧ sigla ≠ "" ∧ expansion ≠ "") as Hgen.
  { induction reader as [|row r IH]; intros acc; simpl; [by left|].
    intros [Hin|(row' & s0 & e0 & Hrow & Hrest)]%IH.
    - unfold csv_row_step in Hin.
      destruct (dict_get "Sigla" row) as [[s0|]|] eqn:Es;
        destruct (dict_get expansion_field row) as [[e0|]|] eqn:Ee;
        try (by left).
      cbv zeta in Hin. case_decide as Hne; [|by left].
      apply elem_of_app in Hin as [?|[= -> ->]%list_elem_of_singleton];
        [by left|].
      right. exists row, s0, e0. destruct Hne. split_and!; [left|done..].
    - right. exists row', s0, e0. split; [by right|done]. }
  intros [?%elem_of_nil|?]%Hgen; done.
Qed.

(** X16. What [load_siglas_csv] hands on: every pair it returns comes from
    a row that has both fields, is the pair of their stripped values, and
    neither is empty; hence the clustering engine takes the two terms as they
    are and never drops the row. *)
Theorem loaded_rows_survive reader sigla expansion concepts :
  (sigla, expansion) ∈ load_siglas_csv reader →
  (∃ row sigla0 expansion0,
     row ∈ reader
     ∧ dict_get "Sigla" row = Some (Some sigla0)
     ∧ dict_get expansion_field row = Some (Some expansion0)
     ∧ sigla = Py.strip sigla0 ∧ expansion = Py.strip expansion0)
  ∧ sigla ≠ "" ∧ expansion ≠ ""
  ∧ normalized_set [sigla; expansion] = {[sigla; expansion]}
  ∧ ∃ i concept, csv_step concepts (sigla, expansion) !! i = Some concept
                 ∧ {[sigla; expansion]} ⊆ concept.
Proof.
  intros (row & s0 & e0 & Hrow & Hs & He & -> & -> & Hns & Hne)
           %load_siglas_csv_rows.
  assert (normalized_set [Py.strip s0; Py.strip e0]
          = {[Py.strip s0; Py.strip e0]}) as Hnorm.
  { rewrite normalized_set_clean.
    - simpl. set_solver.
    - repeat constructor; try done; apply strip_idemp. }
  split_and!; [by exists row, s0, e0|done..|].
  unfold csv_step. simpl. rewrite <-Hnorm. apply merge_set_contains.
  rewrite Hnorm. set_solver.
Qed.

Lemma loaded_rows_survive_witness :
  normalized_set ["AV"; "Agudeza visual"] = {["AV"; "Agudeza visual"]}
  ∧ ∃ i concept,
      csv_step [] ("AV", "Agudeza visual") !! i = Some concept
      ∧ {["AV"; "Agudeza visual"]} ⊆ concept.
Proof.
  refine (proj2 (proj2 (proj2 (loaded_rows_survive
            [[("Sigla", Some " AV"); (expansion_field, Some "Agudeza visual ")];
             [("Sigla", Some "X"); (expansion_field, None)];
             [("Sigla", Some ""); (expansion_field, Some "nada")]]
            "AV" "Agudeza visual" [] _)))).
  by_evaluation.
Defined.

(** * crear_siglas_medicas.py *)

Lemma split_max1_go_contains c s current :
  Py.contains c s = true →
  ∃ part0 part1, CrearSiglas.split_max1_go c s current = [part0; part1].
Proof.
  revert current. induction s as [|d s IH]; intros cur; simpl; [done|].
  destruct (decide (c = d)) as [->|Hne].
  - intros _. rewrite decide_True by done. eauto.
  - intros Hs. rewrite decide_False by congruence. by apply IH.
Qed.

Lemma line_step_entry expansion_groups line :
  CrearSiglas.line_step expansion_groups line
  = Some match line_entry line with
         | Some (sigla, expansion_key) =>
             CrearSiglas.groups_add expansion_key sigla expansion_groups
         | None => expansion_groups
         end.
Proof.
  unfold CrearSiglas.line_step, line_entry. cbv zeta.
  case_decide; [done|].
  destruct (Py.contains ":" (Py.strip line)) eqn:Hc; simpl; [|done].
  destruct (split_max1_go_contains ":" (Py.strip line) "" Hc)
    as (p0 & p1 & Hsplit).
  unfold CrearSiglas.split_max1. by rewrite Hsplit.
Qed.

(** The relation a table of groups stands for. *)
Lemma groups_add_rel expansion_key sigla expansion_groups key s :
  (∃ siglas, (key, siglas)
             ∈ CrearSiglas.groups_add expansion_key sigla expansion_groups
             ∧ s ∈ siglas)
  ↔ (∃ siglas, (key, siglas) ∈ expansion_groups ∧ s ∈ siglas)
    ∨ (key = expansion_key ∧ s = sigla).
Proof.
  induction expansion_groups as [|[k S] r IH]; simpl.
  - split.
    + intros (siglas & [= -> ->]%list_elem_of_singleton & Hs%elem_of_singleton).
      by right.
    + intros [(? & ?%elem_of_nil & _)|[-> ->]]; [done|].
      exists {[sigla]}. split; [left|by apply elem_of_singleton].
  - case_decide as Hk.
    + subst k. split.
      * intros (siglas & Hin & Hs). apply elem_of_cons in Hin as [Heq|Hin].
        -- injection Heq as -> ->.
           apply elem_of_union in Hs as [Hs|Hs%elem_of_singleton]; [|by right].
           left. exists S. split; [left|done].
        -- left. exists siglas. split; [by right|done].
      * intros [(siglas & Hin & Hs)|[-> ->]].
        -- apply elem_of_cons in Hin as [Heq|Hin].
           ++ injection Heq as -> ->. exists (S ∪ {[sigla]}).
              split; [left|set_solver].
           ++ exists siglas. split; [by right|done].
        -- exists (S ∪ {[sigla]}). split; [left|set_solver].
    + split.
      * intros (siglas & Hin & Hs). apply elem_of_cons in Hin as [Heq|Hin].
        -- injection Heq as -> ->. left. exists S. split; [left|done].
        -- destruct (proj1 IH) as [(S' & ? & ?)|?];
             [by exists siglas| |by right].
           left. exists S'. split; [by right|done].
      * intros [(siglas & Hin & Hs)|[-> ->]].
        -- apply elem_of_cons in Hin as [Heq|Hin].
           ++ injection Heq as -> ->. exists S. split; [left|done].
           ++ destruct (proj2 IH) as (S' & ? & ?); [left; by exists siglas|].
              exists S'. split; [by right|done].
        -- destruct (proj2 IH) as (S' & ? & ?); [by right|].
           exists S'. split; [by right|done].
Qed.

Lemma groups_add_keys expansion_key sigla expansion_groups key :
  key ∈ (CrearSiglas.groups_add expansion_key sigla expansion_groups).*1
  ↔ key ∈ expansion_groups.*1 ∨ key = expansion_key.
Proof.
  induction expansion_groups as [|[k S] r IH]; csimpl.
  - rewrite list_elem_of_singleton. split; [by right|].
    by intros [?%elem_of_nil|?].
  - case_decide as Hk; csimpl.
    + subst k. rewrite !elem_of_cons. naive_solver.
    + rewrite !elem_of_cons, IH. naive_solver.
Qed.

Lemma groups_add_NoDup expansion_key sigla expansion_groups :
  NoDup expansion_groups.*1 →
  NoDup (CrearSiglas.groups_add expansion_key sigla expansion_groups).*1.
Proof.
  induction expansion_groups as [|[k S] r IH]; csimpl.
  - intros _. apply NoDup_singleton.
  - rewrite NoDup_cons. intros [Hk Hr]. case_decide as Hne; csimpl.
    + by apply NoDup_cons.
    + apply NoDup_cons. split; [|by apply IH].
      rewrite groups_add_keys. intros [?|?]; [done|congruence].
Qed.

Lemma groups_add_nonempty expansion_key sigla expansion_groups :
  Forall (λ item, item.2 ≠ ∅) expansion_groups →
  Forall (λ item, item.2 ≠ ∅)
    (CrearSiglas.groups_add expansion_key sigla expansion_groups).
Proof.
  induction 1 as [|[k S] r HS Hr IH]; simpl.
  - apply Forall_singleton. simpl. set_solver.
  - case_decide; constructor; simpl in *; [set_solver|done..].
Qed.

(** The table of groups when the lines are read. *)
Lemma read_lines_groups expansion_groups lines :
  NoDup expansion_groups.*1 →
  Forall (λ item, item.2 ≠ ∅) expansion_groups →
  ∃ final,
    CrearSiglas.read_lines expansion_groups lines = Some final
    ∧ NoDup final.*1
    ∧ Forall (λ item, item.2 ≠ ∅) final
    ∧ ∀ key s,
        (∃ siglas, (key, siglas) ∈ final ∧ s ∈ siglas)
        ↔ (∃ siglas, (key, siglas) ∈ expansion_groups ∧ s ∈ siglas)
          ∨ ∃ line, line ∈ lines ∧ line_entry line = Some (s, key).
Proof.
  revert expansion_groups.
  induction lines as [|line r IH]; intros g Hnd Hne; simpl.
  - exists g. split_and!; [done..|]. intros key s. split; [by left|].
    by intros [?|(? & ?%elem_of_nil & _)].
  - rewrite line_step_entry. simpl.
    destruct (line_entry line) as [[sigla ekey]|] eqn:Eline.
    + destruct (IH (CrearSiglas.groups_add ekey sigla g))
        as (final & -> & Hnd' & Hne' & Hrel);
        [by apply groups_add_NoDup|by apply groups_add_nonempty|].
      exists final. split_and!; [done..|]. intros key s.
      rewrite Hrel, groups_add_rel. split.
      * intros [[?|[-> ->]]|(l & ? & ?)]; [by left|right..].
        -- exists line. split; [left|done].
        -- exists l. split; [by right|done].
      * intros [?|(l & [->|?]%elem_of_cons & Hl)]; [by left; left| |].
        -- left; right. by simplify_eq.
        -- right. by exists l.
    + destruct (IH g) as (final & -> & Hnd' & Hne' & Hrel); [done..|].
      exists final. split_and!; [done..|]. intros key s. rewrite Hrel. split.
      * intros [?|(l & ? & ?)]; [by left|]. right. exists l. split; [by right|done].
      * intros [?|(l & [->|?]%elem_of_cons & Hl)]; [by left|congruence|].
        right. by exists l.
Qed.

Lemma dict_set_Forall {V} (P : string * V → Prop) k v (d : dict V) :
  Forall P d → P (k, v) → Forall P (dict_set k v d).
Proof.
  intros Hd Hkv. induction Hd as [|[k' v'] r Hh Hr IH]; simpl.
  - by apply Forall_singleton.
  - case_decide; constructor; done.
Qed.

Lemma NoDup_fst_unique {A B} (l : list (A * B)) k x y :
  NoDup l.*1 → (k, x) ∈ l → (k, y) ∈ l → x = y.
Proof.
  induction l as [|[k' z] l IH]; csimpl; [by intros _ ?%elem_of_nil|].
  rewrite NoDup_cons, !elem_of_cons.
  intros [Hk Hl] [Hx|Hx] [Hy|Hy]; simplify_eq; [done| | |by apply IH].
  - destruct Hk. by apply (list_elem_of_fmap_2 fst _ (_, y)).
  - destruct Hk. by apply (list_elem_of_fmap_2 fst _ (_, x)).
Qed.

Lemma sorted_elements_nonempty (siglas : gset string) :
  siglas ≠ ∅ → ∃ primary rest, Py.sorted (elements siglas) = primary :: rest.
Proof.
  intros Hne. destruct (Py.sorted (elements siglas)) as [|p r] eqn:E; [|eauto].
  destruct (set_choose_L siglas Hne) as [s Hs].
  apply elem_of_elements in Hs. unfold Py.sorted in E.
  rewrite <-(sorted_by_perm id), E in Hs. by apply elem_of_nil in Hs.
Qed.

Lemma group_step_entries all_groups state item :
  item ∈ all_groups → item.2 ≠ ∅ →
  Forall (λ e, entry_of_group all_groups e.1 e.2) state.1 →
  ∃ state', CrearSiglas.group_step state item = Some state'
            ∧ Forall (λ e, entry_of_group all_groups e.1 e.2) state'.1.
Proof.
  intros Hin Hne Hstate. destruct item as [ekey siglas].
  destruct state as [siglas_dict counter]. cbn [fst snd] in *.
  destruct (sorted_elements_nonempty siglas Hne) as (primary & rest & Hsorted).
  unfold CrearSiglas.group_step. cbv zeta. cbn [fst snd]. rewrite Hsorted.
  destruct (dict_get primary siglas_dict) eqn:Hget.
  - eexists. split; [done|]. cbn [fst snd]. apply dict_set_Forall; [done|].
    exists ekey, siglas, primary, rest. split_and!; [done..|]. right.
    exists (default 0 (counter !! primary) + 1). split; [lia|done].
  - eexists. split; [done|]. cbn [fst snd]. apply dict_set_Forall; [done|].
    exists ekey, siglas, primary, rest. split_and!; [done..|]. by left.
Qed.

Lemma name_groups_entries all_groups state expansion_groups :
  expansion_groups ⊆ all_groups →
  Forall (λ item, item.2 ≠ ∅) expansion_groups →
  Forall (λ e, entry_of_group all_groups e.1 e.2) state.1 →
  ∃ final, CrearSiglas.name_groups state expansion_groups = Some final
           ∧ Forall (λ e, entry_of_group all_groups e.1 e.2) final.1.
Proof.
  intros Hsub Hne. revert state Hsub.
  induction Hne as [|item r Hitem Hr IH]; intros state Hsub Hstate; simpl.
  - by exists state.
  - destruct (group_step_entries all_groups state item)
      as (state' & -> & Hstate'); [set_solver|done..|].
    simpl. apply IH; [set_solver|done].
Qed.

Lemma line_entry_stripped line sigla expansion_key :
  line_entry line = Some (sigla, expansion_key) →
  stripped sigla ∧ Forall stripped expansion_key.
Proof.
  unfold line_entry. cbv zeta. case_decide; [done|].
  destruct (negb _); [done|].
  destruct (CrearSiglas.split_max1 _ _) as [|p0 [|p1 ?]]; [done..|].
  intros [= <- <-]. split; [apply strip_idemp|].
  unfold Py.sorted. rewrite sorted_by_perm. apply Forall_fmap, Forall_forall.
  intros x _. apply strip_idemp.
Qed.

Lemma parse_siglas_entries_spec lines :
  ∃ siglas_dict,
    CrearSiglas.parse_siglas_multiples lines = Some siglas_dict
    ∧ ∀ key terminos,
        (key, terminos) ∈ siglas_dict →
        ∃ expansion_key (siglas : gset string) primary rest,
          (∀ s, s ∈ siglas ↔
                ∃ line, line ∈ lines
                        ∧ line_entry line = Some (s, expansion_key))
          ∧ Py.sorted (elements siglas) = primary :: rest
          ∧ terminos = (primary :: rest) ++ expansion_key
          ∧ (key = primary
             ∨ ∃ count, 1 ≤ count ∧ key = suffixed primary count)
          ∧ Forall stripped terminos.
Proof.
  unfold CrearSiglas.parse_siglas_multiples.
  destruct (read_lines_groups [] lines) as (groups & Hread & Hnd & Hne & Hrel);
    [constructor..|].
  destruct (name_groups_entries groups ([], ∅) groups)
    as (final & Hname & Hfinal); [done..|constructor|].
  rewrite Hread. simpl. rewrite Hname. simpl. exists final.1. split; [done|]. intros key terminos Hin.
  rewrite Forall_forall in Hfinal.
  destruct (Hfinal _ Hin) as (ekey & siglas & primary & rest
                              & Hgroup & Hsorted & Hterm & Hkey).
  cbn [fst snd] in Hterm, Hkey. subst terminos.
  assert (∀ s, s ∈ siglas ↔
               ∃ line, line ∈ lines ∧ line_entry line = Some (s, ekey))
    as Hsiglas.
  { intros s. split.
    - intros Hs. destruct (proj1 (Hrel ekey s)) as [(? & ?%elem_of_nil & _)|?];
        [by exists siglas|done..].
    - intros Hline. destruct (proj2 (Hrel ekey s)) as (S' & HS' & Hs);
        [by right|].
      by rewrite (NoDup_fst_unique groups ekey siglas S'). }
  exists ekey, siglas, primary, rest. split_and!; [done..|].
  apply Forall_app. split.
  - rewrite <-Hsorted. unfold Py.sorted. rewrite sorted_by_perm.
    apply Forall_forall. intros s (line & _ & Hline)%elem_of_elements%Hsiglas.
    by apply line_entry_stripped in Hline as [? _].
  - assert (primary ∈ siglas) as (line & _ & Hline)%Hsiglas.
    { apply elem_of_elements. rewrite <-(sorted_by_perm id).
      fold (Py.sorted (elements siglas)). rewrite Hsorted. left. }
    by apply line_entry_stripped in Hline as [_ ?].
Qed.

(** X17. [parse_siglas_multiples] never stops on an index error, and every
    entry of its result is a group of lines with the same expansions: the
    term list is the siglas of exactly the lines of the file that have these
    expansions, sorted, followed by the sorted expansions; the key is the
    first of the siglas, alone or followed by a hyphen and a counter; and
    every term is stripped. *)
Theorem parse_siglas_entries lines :
  ∃ siglas_dict,
    CrearSiglas.parse_siglas_multiples lines = Some siglas_dict
    ∧ ∀ key terminos,
        (key, terminos) ∈ siglas_dict →
        ∃ expansion_key (siglas : gset string) primary rest,
          (∀ s, s ∈ siglas ↔
                ∃ line, line ∈ lines
                        ∧ line_entry line = Some (s, expansion_key))
          ∧ Py.sorted (elements siglas) = primary :: rest
          ∧ terminos = (primary :: rest) ++ expansion_key
          ∧ (key = primary
             ∨ ∃ count, 1 ≤ count ∧ key = suffixed primary count)
          ∧ Forall stripped terminos.
Proof. apply parse_siglas_entries_spec. Qed.

Lemma to_uint_nonnil n : Nat.to_uint n ≠ Nil.
Proof.
  rewrite <-(Unsigned.of_to n) at 1. rewrite Unsigned.to_of.
  apply DecimalFacts.unorm_nonnil.
Qed.

Lemma str_of_nat_nonempty n : CrearSiglas.str_of_nat n ≠ "".
Proof.
  unfold CrearSiglas.str_of_nat. pose proof (to_uint_nonnil n).
  by destruct (Nat.to_uint n).
Qed.

Lemma digits_dollar_decimal d :
  d ≠ Nil → Py.digits_dollar (NilEmpty.string_of_uint d) = Some "".
Proof.
  assert (∀ d : uint, d = Nil ∨ d ≠ Nil) as Hnil
    by (intros []; [by left|by right..]).
  induction d as [|d IH|d IH|d IH|d IH|d IH|d IH|d IH|d IH|d IH|d IH];
    intros Hd; [done|..];
    (destruct (Hnil d) as [->|Hne]; [done|]);
    simpl; change (Py.isdigit _) with true; cbv iota; by rewrite IH.
Qed.

Lemma digits_dollar_blocked p digits :
  digits ≠ "" → Py.digits_dollar (p +:+ String "-" digits) = None.
Proof.
  intros Hd. induction p as [|c p IH]; [done|].
  rewrite string_app_cons. simpl. destruct (Py.isdigit c); [|done].
  rewrite IH.
  assert (Py.at_dollar (p +:+ String "-" digits) = false) as ->; [|done].
  destruct p as [|a [|b p]]; [by destruct digits|done..].
Qed.

Lemma sub_suffix_hyphen_digits p digits :
  digits ≠ "" → Py.digits_dollar digits = Some "" →
  Py.sub_suffix (p +:+ String "-" digits) = p.
Proof.
  intros Hne Hd. induction p as [|c p IH].
  - simpl. by rewrite Hd.
  - rewrite string_app_cons. simpl. rewrite IH.
    case_decide; [|done]. by rewrite digits_dollar_blocked.
Qed.

Lemma sub_suffix_suffixed primary count :
  Py.sub_suffix (suffixed primary count) = primary.
Proof.
  unfold suffixed. change ("-" +:+ ?s) with (String "-" s).
  apply sub_suffix_hyphen_digits; [apply str_of_nat_nonempty|].
  apply digits_dollar_decimal, to_uint_nonnil.
Qed.

(** X18. The counter that [parse_siglas_multiples] hangs on a key is the
    suffix that [build_concept_map] takes off: removing the suffix from a
    sigla followed by a hyphen and a number gives the sigla back, whatever the
    sigla. *)
Theorem suffix_round_trip primary count :
  Py.sub_suffix (suffixed primary count) = primary.
Proof. apply sub_suffix_suffixed. Qed.

Lemma lstrip_no_whitespace t : contains_whitespace t = false → Py.lstrip t = t.
Proof. destruct t as [|c t]; simpl; [done|]. by destruct (Py.isspace c). Qed.

Lemma rstrip_no_whitespace t : contains_whitespace t = false → Py.rstrip t = t.
Proof.
  induction t as [|c t IH]; simpl; [done|].
  destruct (Py.isspace c) eqn:Hc; [done|]. intros Ht. rewrite IH by done.
  by destruct t.
Qed.

Lemma rstrip_app_r s t :
  t ≠ "" → Py.rstrip t = t → Py.rstrip (s +:+ t) = s +:+ t.
Proof.
  intros Hne Ht. induction s as [|c s IH]; [done|].
  rewrite string_app_cons. simpl. rewrite IH.
  destruct (s +:+ t) eqn:E; [|done]. by destruct s, t.
Qed.

Lemma strip_app_r s t :
  s ≠ "" → stripped s → t ≠ "" → contains_whitespace t = false →
  stripped (s +:+ t).
Proof.
  intros Hs Hstr Ht Hws. unfold stripped, Py.strip in *.
  destruct (lstrip_head s) as [E|(c & r & E & Hc)].
  { rewrite E in Hstr. simpl in Hstr. congruence. }
  assert (∃ r', s = String c r') as [r' ->].
  { destruct (rstrip_head c r Hc) as [r' Hr]. exists r'. congruence. }
  rewrite string_app_cons. cbn [Py.lstrip]. rewrite Hc.
  rewrite <-string_app_cons. apply rstrip_app_r; [done|].
  by apply rstrip_no_whitespace.
Qed.

Lemma no_whitespace_decimal d :
  contains_whitespace (NilEmpty.string_of_uint d) = false.
Proof. induction d; simpl; done. Qed.

Lemma suffixed_stripped primary count :
  primary ≠ "" → stripped primary → stripped (suffixed primary count).
Proof.
  intros Hne Hs. unfold suffixed. apply strip_app_r; [done..| |].
  - done.
  - change ("-" +:+ ?s) with (String "-" s). simpl.
    apply no_whitespace_decimal.
Qed.

Lemma normalized_set_cons t terms :
  t ≠ "" → stripped t →
  normalized_set (t :: terms) = {[t]} ∪ normalized_set terms.
Proof.
  intros Hne Hs. unfold normalized_set. csimpl. unfold normalize_term at 1.
  rewrite Hs, filter_cons, decide_True by done. done.
Qed.

(** X19. The counter never shows in the Concept Map: for an entry of
    [parse_siglas_multiples] whose first sigla is not empty and does not
    itself end in a hyphen and digits, the key adds nothing to the terms, and
    the concept made of the entry has, once the suffixes are removed, the
    terms of its term list and no other. *)
Theorem counter_never_leaks lines siglas_dict key terminos primary rest :
  CrearSiglas.parse_siglas_multiples lines = Some siglas_dict →
  (key, terminos) ∈ siglas_dict →
  terminos = primary :: rest →
  primary ≠ "" → Py.sub_suffix primary = primary →
  cleaned_terms (normalized_set (key :: terminos))
  = cleaned_terms (normalized_set terminos)
  ∧ ∀ concepts,
      ∃ concept, canonical_step concepts (key, terminos) = concepts ++ [concept]
                 ∧ cleaned_terms concept
                   = cleaned_terms (normalized_set terminos).
Proof.
  intros Hparse Hin -> Hne Hclean.
  destruct (parse_siglas_entries_spec lines) as (d & Hd & Hshape).
  rewrite Hparse in Hd. injection Hd as <-.
  destruct (Hshape _ _ Hin)
    as (ekey & siglas & primary' & rest' & _ & _ & Hterm & Hkey & Hstripped).
  injection Hterm as <- Hrest. clear Hrest.
  assert (stripped primary) as Hsp by (by apply Forall_cons in Hstripped as [? _]).
  assert (cleaned_terms (normalized_set (key :: primary :: rest))
          = cleaned_terms (normalized_set (primary :: rest))) as Heq.
  { destruct Hkey as [->|(count & _ & ->)].
    - rewrite (normalized_set_cons primary (primary :: rest)) by done.
      rewrite (normalized_set_cons primary rest) by done.
      f_equal. set_solver.
    - rewrite normalized_set_cons;
        [|by destruct primary|by apply suffixed_stripped].
      rewrite (normalized_set_cons primary rest) by done.
      unfold cleaned_terms. apply set_eq. intros t.
      rewrite !elem_of_map. split.
      + intros (u & -> & [->%elem_of_singleton|Hu]%elem_of_union).
        * exists primary. rewrite sub_suffix_suffixed. split; [done|set_solver].
        * by exists u.
      + intros (u & -> & Hu). exists u. split; [done|set_solver]. }
  split; [done|]. intros concepts. unfold canonical_step. cbn [fst snd].
  rewrite decide_False.
  - eexists. split; [done|]. exact Heq.
  - rewrite (normalized_set_cons key); [set_solver|..].
    + destruct Hkey as [->|(count & _ & ->)]; [done|]. by destruct primary.
    + destruct Hkey as [->|(count & _ & ->)]; [done|].
      by apply suffixed_stripped.
Qed.

Lemma counter_never_leaks_witness :
  cleaned_terms (normalized_set ("AM-2" :: ["AM"; "Astigmatismo mixto"]))
  = cleaned_terms (normalized_set ["AM"; "Astigmatismo mixto"])
  ∧ ∀ concepts,
      ∃ concept,
        canonical_step concepts ("AM-2", ["AM"; "Astigmatismo mixto"])
        = concepts ++ [concept]
        ∧ cleaned_terms concept
          = cleaned_terms (normalized_set ["AM"; "Astigmatismo mixto"]).
Proof.
  refine (counter_never_leaks
            ["AM: Agujero macular"; "AM: Astigmatismo mixto"]
            [("AM", ["AM"; "Agujero macular"]);
             ("AM-2", ["AM"; "Astigmatismo mixto"])]
            "AM-2" ["AM"; "Astigmatismo mixto"] "AM" ["Astigmatismo mixto"]
            _ _ _ _ _).
  - vm_compute. reflexivity.
  - by_evaluation.
  - reflexivity.
  - by_evaluation.
  - vm_compute. reflexivity.
Defined.








(** Where a sigla does end in a hyphen and digits, a later key can fall on
    it: the group of the first line is written over. *)
Example group_written_over :
  CrearSiglas.parse_siglas_multiples ["AM-2: c"; "AM: a"; "AM: b"]
  = Some [("AM-2", ["AM"; "b"]); ("AM", ["AM"; "a"])].
Proof. by vm_compute. Qed.

(** * From the sources to the expansion *)

Lemma concept_id_seq_NoDup start len : NoDup (concept_id <$> seq start len).
Proof.
  apply NoDup_fmap_2_strong; [|apply NoDup_seq].
  intros n m _ _. apply concept_id_inj.
Qed.

Lemma expand_term_member synonyms c terms t :
  NoDup synonyms.*1 →
  (c, terms) ∈ synonyms → t ∈ terms → Py.strip t ≠ "" →
  let r := expand_term synonyms (build_inverted_index synonyms) (Py.strip t) in
  found r = true ∧ c ∈ res_concept_ids r
  ∧ ∀ u, u ∈ terms → u ∈ expanded_terms r.
Proof.
  intros Hnd Hc Ht Hne r.
  destruct (index_lookup_member synonyms c terms t Hc Ht Hne)
    as (ids & Hids & Hcids).
  unfold r, expand_term. rewrite index_lookup, Hids.
  cbn [fmap option_fmap option_map found res_concept_ids expanded_terms].
  split_and!; [done|by apply elem_of_index_entry|].
  intros u Hu. apply elem_of_collect_synonyms. exists c, terms.
  split_and!; [by apply elem_of_index_entry| |done]. by apply dict_get_elem.
Qed.

(** X21. From the sources to the query: build the Concept Map, build the
    index from it, and expand a normalized term [t] of some raw group, of
    any of the three sources, that does not end in a hyphen and digits; then
    [t] is found, and the expanded terms hold [t] and, with its suffix
    removed, every other term of the group. *)
Theorem pipeline_expands_group `{SetOrder} sinonimos siglas_json siglas_csv
    normalized t u :
  normalized ∈ canonical_sets siglas_json
               ++ mergeable_sets sinonimos siglas_csv →
  t ∈ normalized → u ∈ normalized →
  Py.sub_suffix t = t →
  let concept_map := build_concept_map sinonimos siglas_json siglas_csv in
  let r := expand_term concept_map (build_inverted_index concept_map) t in
  found r = true
  ∧ t ∈ expanded_terms r
  ∧ Py.sub_suffix u ∈ expanded_terms r.
Proof.
  intros Hgroup Ht Hu Hclean concept_map r.
  destruct (cluster_contains_group sinonimos siglas_json siglas_csv normalized
              Hgroup) as (X & [i Hi]%list_elem_of_lookup & Hsub); [set_solver|].
  assert (stripped t ∧ t ≠ "") as [Hstripped Hne].
  { eapply all_terms_stripped, elem_of_all_terms_1; done. }
  assert ((concept_id (1 + i), terms_list X) ∈ concept_map) as Hentry.
  { unfold concept_map. rewrite build_concept_map_entries.
    apply list_elem_of_lookup. exists i.
    by rewrite concept_entries_lookup, Hi. }
  assert (NoDup concept_map.*1) as Hnd.
  { unfold concept_map.
    rewrite build_concept_map_entries, concept_entries_keys.
    apply concept_id_seq_NoDup. }
  assert (t ∈ terms_list X) as Htl.
  { apply elem_of_terms_list. exists t. split; [set_solver|done]. }
  destruct (expand_term_member concept_map _ _ t Hnd Hentry Htl)
    as (Hfound & _ & Hall); [by rewrite Hstripped|].
  rewrite Hstripped in Hfound, Hall. fold r in Hfound, Hall.
  split_and!; [done|by apply Hall|].
  apply Hall, elem_of_terms_list. exists u. split; [set_solver|done].
Qed.

Lemma pipeline_expands_group_witness :
  let concept_map :=
    @build_concept_map elements_order [["ADD"; "Adicion"]]
      [("AD", ["Adicion"]); ("AM-2", ["AM"; "Astigmatismo mixto"])] [] in
  let r := expand_term concept_map (build_inverted_index concept_map) "ADD" in
  found r = true
  ∧ "ADD" ∈ expanded_terms r
  ∧ Py.sub_suffix "Adicion" ∈ expanded_terms r.
Proof.
  refine (@pipeline_expands_group elements_order [["ADD"; "Adicion"]]
            [("AD", ["Adicion"]); ("AM-2", ["AM"; "Astigmatismo mixto"])] []
            (normalized_set ["ADD"; "Adicion"]) "ADD" "Adicion" _ _ _ _).
  - by_evaluation.
  - by_evaluation.
  - by_evaluation.
  - vm_compute. reflexivity.
Defined.

Lemma merge_set_length concepts normalized :
  length concepts ≤ length (merge_set concepts normalized)
  ∧ length (merge_set concepts normalized)
    ≤ length concepts + length (filter (λ X, X ≠ ∅) [normalized]).
Proof.
  rewrite filter_cons, filter_nil.
  destruct (merge_set_cases concepts normalized)
    as [->|[(Hne & _ & ->)|(i & X & Hne & _ & _ & _ & ->)]].
  - split; lia.
  - rewrite length_app, decide_True by done. simpl. lia.
  - rewrite length_insert. lia.
Qed.

Lemma foldl_merge_set_length sets concepts :
  length concepts ≤ length (foldl merge_set concepts sets)
  ∧ length (foldl merge_set concepts sets)
    ≤ length concepts + length (filter (λ X, X ≠ ∅) sets).
Proof.
  revert concepts. induction sets as [|S r IH]; intros concepts.
  - rewrite filter_nil. simpl. lia.
  - destruct (IH (merge_set concepts S)) as [Hlo Hhi].
    destruct (merge_set_length concepts S) as [Hlo' Hhi'].
    cbn [foldl]. rewrite !filter_cons, filter_nil in *.
    case_decide; simpl in *; lia.
Qed.

Lemma cluster_nonempty sinonimos siglas_json siglas_csv X :
  X ∈ cluster sinonimos siglas_json siglas_csv → X ≠ ∅.
Proof.
  rewrite cluster_sets. revert X.
  change (∀ X, X ∈ ?l → X ≠ ∅) with ((λ cs, ∀ X, X ∈ cs → X ≠ ∅) l).
  apply foldl_invariant.
  - by intros X [? _]%list_elem_of_filter.
  - intros cs S _ Hcs X.
    destruct (merge_set_cases cs S)
      as [->|[(Hne & _ & ->)|(i & Y & Hne & Hi & _ & _ & ->)]]; [by auto| |].
    + rewrite elem_of_app, list_elem_of_singleton. intros [?| ->]; auto.
    + intros [k Hk]%list_elem_of_lookup.
      destruct (decide (i = k)) as [->|Hik].
      * rewrite list_lookup_insert_eq in Hk by (by eapply lookup_lt_Some).
        injection Hk as <-. set_solver.
      * rewrite list_lookup_insert_ne in Hk by done.
        apply Hcs. by eapply list_elem_of_lookup_2.
Qed.

(** X22. The Concept Map has one entry for each concept, under keys that
    are all different, none with an empty member list; there are at least as
    many entries as canonical groups with a non-empty normalized set, and at
    most as many as raw groups with one. *)
Theorem concept_map_counts `{SetOrder} sinonimos siglas_json siglas_csv :
  let concept_map := build_concept_map sinonimos siglas_json siglas_csv in
  NoDup concept_map.*1
  ∧ (∀ cid members, (cid, members) ∈ concept_map → members ≠ [])
  ∧ length (filter (λ X, X ≠ ∅) (canonical_sets siglas_json))
    ≤ length concept_map
  ∧ length concept_map
    ≤ length (filter (λ X, X ≠ ∅)
                (canonical_sets siglas_json
                 ++ mergeable_sets sinonimos siglas_csv)).
Proof.
  intros concept_map.
  assert (length concept_map
          = length (cluster sinonimos siglas_json siglas_csv)) as Hlen.
  { rewrite <-(length_fmap fst concept_map). unfold concept_map.
    rewrite build_concept_map_entries, concept_entries_keys.
    by rewrite length_fmap, length_seq. }
  destruct (foldl_merge_set_length (mergeable_sets sinonimos siglas_csv)
              (filter (λ X, X ≠ ∅) (canonical_sets siglas_json)))
    as [Hlo Hhi].
  rewrite <-cluster_sets in Hlo, Hhi.
  split_and!.
  - unfold concept_map.
    rewrite build_concept_map_entries, concept_entries_keys.
    apply concept_id_seq_NoDup.
  - intros cid members. unfold concept_map.
    rewrite build_concept_map_entries.
    intros [i Hi]%list_elem_of_lookup. rewrite concept_entries_lookup in Hi.
    destruct (cluster _ _ _ !! i) as [X|] eqn:EX; [|done].
    injection Hi as _ <-.
    assert (X ≠ ∅) as HX
      by (eapply cluster_nonempty, list_elem_of_lookup_2; done).
    destruct (set_choose_L X HX) as [t Ht]. intros E.
    assert (Py.sub_suffix t ∈ terms_list X) as Hin
      by (apply elem_of_terms_list; by exists t).
    rewrite E in Hin. by apply elem_of_nil in Hin.
  - lia.
  - rewrite filter_app, length_app. lia.
Qed.

(** * refine_filter_and_update.py *)

Lemma row_step_fold data_rows filtered keep :
  foldl RefineFilter.row_step (filtered, keep) data_rows
  = (filtered ++ (row_pair <$> filter (λ row, ¬ row_stays row) data_rows),
     keep ++ filter row_stays data_rows).
Proof.
  revert filtered keep.
  induction data_rows as [|row r IH]; intros filtered keep; simpl.
  - by rewrite !app_nil_r.
  - rewrite !filter_cons. destruct (decide (row_stays row)) as [Hs|Hs].
    + rewrite decide_False by auto.
      assert (RefineFilter.row_step (filtered, keep) row
              = (filtered, keep ++ [row])) as ->.
      { destruct row as [|cell0 [|cell1 cells]]; [done..|].
        unfold RefineFilter.row_step, row_stays in *. cbn [fst snd].
        by rewrite Hs. }
      by rewrite IH, <-app_assoc.
    + rewrite decide_True by auto.
      assert (RefineFilter.row_step (filtered, keep) row
              = (filtered ++ [row_pair row], keep)) as ->.
      { destruct row as [|cell0 [|cell1 cells]]; [by destruct Hs..|].
        unfold RefineFilter.row_step, row_stays in *. cbn [fst snd].
        destruct (RefineFilter.to_modify _ _); [done|by destruct Hs]. }
      rewrite IH. csimpl. by rewrite <-app_assoc.
Qed.

(** X23. Every data row goes one way and one way only: the rows written
    back to the CSV file are the header and then, in their order and
    untouched, the data rows with fewer than two cells or matching no
    criterion; the rows listed for modification are the others, as pairs of
    stripped cells, in non-decreasing order of the lower-cased sigla; and
    an input without a single row stops on an index error. *)
Theorem refine_partitions all_rows :
  match RefineFilter.main all_rows with
  | None => all_rows = []
  | Some (filtered_rows, written) =>
      ∃ header data_rows,
        all_rows = header :: data_rows
        ∧ written = header :: filter row_stays data_rows
        ∧ filtered_rows
          ≡ₚ row_pair <$> filter (λ row, ¬ row_stays row) data_rows
        ∧ StronglySorted (key_le (λ x, Py.lower x.1)) filtered_rows
        ∧ length filtered_rows + length written = length all_rows
  end.
Proof.
  destruct all_rows as [|header data_rows]; simpl; [done|].
  rewrite row_step_fold. cbn [fst snd app].
  exists header, data_rows. split_and!; [done..|apply sorted_by_perm| |].
  - apply sorted_by_sorted.
  - rewrite sorted_by_perm, length_fmap. simpl.
    pose proof (length_filter_split row_stays data_rows). lia.
Qed.

(** * Instances of the properties above that have a condition inside *)

Lemma statistics_maximum_witness :
  (Z.of_nat (length (concept_ids (Entry ["C0001"; "C0002"] true)))
   ≤ GenerarIndice.max_concepts_per_term
       (GenerarIndice.generate_statistics
          [("a", Entry ["C0001"] false); ("NM", Entry ["C0001"; "C0002"] true);
           ("AR", Entry ["C0003"; "C0004"] true)]))%Z.
Proof.
  refine (proj1 (statistics_maximum
            [("a", Entry ["C0001"] false); ("NM", Entry ["C0001"; "C0002"] true);
             ("AR", Entry ["C0003"; "C0004"] true)])
            "NM" (Entry ["C0001"; "C0002"] true) _).
  right. left.
Defined.

Lemma concept_map_counts_witness :
  ["bar"; "foo"; "X"] ≠ [].
Proof.
  refine (proj1 (proj2 (@concept_map_counts elements_order [["foo"; "bar"]]
                          [("X", ["foo"]); ("Y", ["bar"])] []))
            "C0001" ["bar"; "foo"; "X"] _).
  by_evaluation.
Defined.

Lemma parse_siglas_entries_witness :
  ∃ siglas_dict,
    CrearSiglas.parse_siglas_multiples
      ["AM: Agujero macular"; "AD: Adicion"; "ADD: Adicion";
       "AM: Astigmatismo mixto"]
    = Some siglas_dict
    ∧ ∀ key terminos,
        (key, terminos) ∈ siglas_dict →
        ∃ expansion_key (siglas : gset string) primary rest,
          (∀ s, s ∈ siglas ↔
                ∃ line, line ∈ ["AM: Agujero macular"; "AD: Adicion";
                                "ADD: Adicion"; "AM: Astigmatismo mixto"]
                        ∧ line_entry line = Some (s, expansion_key))
          ∧ Py.sorted (elements siglas) = primary :: rest
          ∧ terminos = (primary :: rest) ++ expansion_key
          ∧ (key = primary
             ∨ ∃ count, 1 ≤ count ∧ key = suffixed primary count)
          ∧ Forall stripped terminos.
Proof.
  exact (parse_siglas_entries
           ["AM: Agujero macular"; "AD: Adicion"; "ADD: Adicion";
            "AM: Astigmatismo mixto"]).
Defined.
